(** * fluid-build: packages, bounded task queue and batch verdicts

    A shallow embedding of [tools/fluid-build/src/common/npmPackage.ts]:
    the [Package] class, the [queueExec] helper built on the [queue] of the
    [async] library, and the batch operations of the [Packages] class.

    Conventions.
    - A JavaScript promise is a cell that is pending or settled once; an
      asynchronous operation is given by the outcome it settles with, and
      the instant at which it settles is chosen by the environment: a run
      of the program is a list of events, one per turn of the event loop.
    - A continuation that follows an [await] runs to completion before any
      other continuation starts (run-to-completion of the event loop), so
      the code between two [await]s is one step of the model.
    - [Date.now()] is read from the event that triggers the step. *)

From Stdlib Require Import ZArith Lia Ascii.
From stdpp Require Import base option list gmap strings pretty.

Local Open Scope string_scope.
Local Open Scope list_scope.
Local Open Scope nat_scope.

(** ** JavaScript vocabulary *)

Module Js.

(** Values thrown by the modelled code. *)
Inductive exn : Type :=
| TypeError (message : string)
| Thrown (reason : string).

(** Result of a synchronous call: a value or a thrown exception. *)
Inductive completion (A : Type) : Type :=
| Return (a : A)
| Throw (e : exn).
Arguments Return {A} a.
Arguments Throw {A} e.

(** Outcome of a settled promise. *)
Inductive settled (A : Type) : Type :=
| Fulfilled (a : A)
| Rejected (e : exn).
Arguments Fulfilled {A} a.
Arguments Rejected {A} e.

(** A promise: [None] while pending, [Some o] once settled with [o]. *)
Abbreviation promise A := (option (settled A)).

Definition fulfilled_value {A} (pr : promise A) : option A :=
  match pr with
  | Some (Fulfilled a) => Some a
  | _ => None
  end.

Definition is_fulfilled {A} (o : settled A) : bool :=
  match o with Fulfilled _ => true | Rejected _ => false end.

(** Truthiness of a string: only the empty string is falsy. *)
Definition truthy_string (s : string) : bool :=
  match s with
  | EmptyString => false
  | String _ _ => true
  end.

(** The three fractional digits of [Number.prototype.toFixed(3)]. *)
Definition digits3 (r : N) : string :=
  String (pretty_N_char (r / 100 mod 10))
    (String (pretty_N_char (r / 10 mod 10))
       (String (pretty_N_char (r mod 10)) EmptyString)).

(** [(ms / 1000).toFixed(3)] for an integral number of milliseconds [ms]:
    the quotient of two [Date.now()] readings by 1000 is the double
    nearest to [ms / 1000], and [toFixed(3)] prints the multiple of
    [0.001] nearest to it, which is [ms / 1000] itself for every
    difference of two time stamps a run can observe. *)
Definition toFixed3_of_ms (ms : Z) : string :=
  let a := Z.to_N (Z.abs ms) in
  (if (ms <? 0)%Z then "-" else EmptyString)
    +:+ pretty (a / 1000)%N +:+ "." +:+ digits3 (a mod 1000)%N.


End Js.

Import Js.

(** ** Package manifests and the [Package] class *)

(** The fields of [IPackage] that the modelled methods read.  The manifest is
    obtained by [require] of a JSON file: an object field is present with
    string values, or it is absent ([undefined], here [None]). *)
Record IPackage : Type := {
  name : string;
  version : string;
  scripts : option (gmap string string);
  dependencies : option (gmap string string);
  devDependencies : option (gmap string string);
}.

Record Package : Type := {
  packageJsonFileName : string;
  packageJson : IPackage;
  packageId : nat;
  _matched : bool;
  _markForBuild : bool;
}.

(** [new Package(packageJsonFileName)]: the manifest read by [require] is the
    argument [json]; [packageCount] is the static counter, returned
    incremented. *)
Definition Package_new (packageCount : nat) (fileName : string) (json : IPackage)
  : Package * nat :=
  ({| packageJsonFileName := fileName;
      packageJson := json;
      packageId := packageCount;
      _matched := false;
      _markForBuild := false |},
   S packageCount).

Definition matched (pkg : Package) : bool := _matched pkg.

Definition markForBuild (pkg : Package) : bool := _markForBuild pkg.

Definition setMatched (pkg : Package) : Package :=
  {| packageJsonFileName := packageJsonFileName pkg;
     packageJson := packageJson pkg;
     packageId := packageId pkg;
     _matched := true;
     _markForBuild := true |}.

Definition setMarkForBuild (pkg : Package) : Package :=
  {| packageJsonFileName := packageJsonFileName pkg;
     packageJson := packageJson pkg;
     packageId := packageId pkg;
     _matched := _matched pkg;
     _markForBuild := true |}.

(** [this.packageJson.scripts[name]]: reading a property of [undefined]
    throws a [TypeError]; reading a missing key of an object gives
    [undefined]. *)
Definition getScript (pkg : Package) (script : string)
  : completion (option string) :=
  match scripts (packageJson pkg) with
  | None => Throw (TypeError "Cannot read properties of undefined")
  | Some table => Return (table !! script)
  end.

(** The members of [Package] a caller can invoke.  Only the two setters
    assign a field; the getters and the asynchronous methods leave the
    object as it is. *)
Inductive PackageOp : Type :=
| OpName
| OpNameColored
| OpVersion
| OpMatched
| OpSetMatched
| OpMarkForBuild
| OpSetMarkForBuild
| OpDependencies
| OpCombinedDependencies
| OpDirectory
| OpGetScript (script : string)
| OpCleanNodeModules
| OpSavePackageJson
| OpNoHoistInstall (repoRoot : string).

Definition apply_op (pkg : Package) (op : PackageOp) : Package :=
  match op with
  | OpSetMatched => setMatched pkg
  | OpSetMarkForBuild => setMarkForBuild pkg
  | _ => pkg
  end.

Definition apply_ops (pkg : Package) (ops : list PackageOp) : Package :=
  foldl apply_op pkg ops.

(** ** Execution results and the verdict *)

(** Modelled from the spec: [ExecAsyncResult] is declared in [./utils],
    which is missing from the sources.  An execution result is an
    error indicator with a diagnostic payload; the indicator is an exception
    object (truthy) or [null] (falsy). *)
Record ExecAsyncResult : Type := {
  error : option string;
  stdout : string;
  stderr : string;
}.

Definition truthy_error (result : ExecAsyncResult) : bool :=
  match error result with
  | Some _ => true
  | None => false
  end.

(** [!results.some(result => result.error)], the last line of
    [Packages.clean] and of [Packages.queueExecOnAllPackage]. *)
Definition reduceToSuccess (results : list ExecAsyncResult) : bool :=
  negb (existsb truthy_error results).

(** ** [queueExec]: a batch of operations on a bounded queue *)

(** [`[${index}/${total}] ${label} - ${elapsedTime.toFixed(3)}s`], where
    [elapsedTime] is [ms / 1000]. *)
Definition status_line (index total : nat) (label : string) (ms : Z) : string :=
  "[" +:+ pretty index +:+ "/" +:+ pretty total +:+ "] " +:+ label
      +:+ " - " +:+ toFixed3_of_ms ms +:+ "s".

(** [Promise.all(ps)] looked at when every promise of [ps] is fulfilled. *)
Definition all_fulfilled {A} (ps : list (promise A)) : option (list A) :=
  mapM fulfilled_value ps.

(** State of [Promise.all(ps)] right after the call. *)
Definition Promise_all {A} (ps : list (promise A)) : promise (list A) :=
  Fulfilled <$> all_fulfilled ps.

(** Reaction of [Promise.all(ps)] to one of its inputs settling with [o]:
    a settled promise never changes, a rejection rejects it at once, and a
    fulfilment fulfils it when it was the last one awaited. *)
Definition Promise_all_react {A} (ps : list (promise A)) (o : settled A)
    (all : promise (list A)) : promise (list A) :=
  match all with
  | Some _ => all
  | None =>
      match o with
      | Rejected e => Some (Rejected e)
      | Fulfilled _ => Promise_all ps
      end
  end.

(** Number of fulfilled promises of a list. *)
Definition fulfilled_count {A} (ps : list (promise A)) : nat :=
  length (omap fulfilled_value ps).

(** How [Promise.all(ps)] relates to [ps] at every instant. *)
Definition all_inv {A} (ps : list (promise A)) (all : promise (list A))
  : Prop :=
  match all with
  | None =>
      all_fulfilled ps = None ∧ ∀ i e, ps !! i ≠ Some (Some (Rejected e))
  | Some (Fulfilled rs) => all_fulfilled ps = Some rs
  | Some (Rejected e) => ∃ i, ps !! i = Some (Some (Rejected e))
  end.

Section QueueExec.

Context {TItem TResult : Type}.

(** [options.concurrency], declared in [../fluidBuild/options]. *)
Variable concurrency : nat.
Variable exec : TItem → settled TResult.
Variable messageCallback : option (TItem → string).

(** A [TaskExec]: the item and, for its [resolve] and [reject], the index
    in [p] of the promise they settle. *)
Record TaskExec : Type := {
  item : TItem;
  slot : nat;
}.

Record QueueState : Type := {
  numDone : nat;
  (** lines given to [logStatus], oldest first *)
  logged : list string;
  (** tasks pushed on [q] and not yet handed to the worker *)
  q_tasks : list TaskExec;
  (** running workers, by the index of their promise, with the
      [startTime] read by [timedExec] *)
  q_workers : gmap nat (TaskExec * Z);
  p : list (promise TResult);
  (** the promise returned by [Promise.all(p)] *)
  all_p : promise (list TResult);
}.

(** [timedExec(item)] from the [Date.now()] read at its start to the one
    read when [exec(item)] has settled; it yields the outcome with the new
    [numDone] and log.  [total] is [p.length]. *)
Definition timedExec (startTime now : Z) (total : nat) (it : TItem)
    (done : nat) (lines : list string)
  : settled TResult * nat * list string :=
  match messageCallback with
  | Some label =>
      match exec it with
      | Fulfilled result =>
          let elapsed := (now - startTime)%Z in
          (Fulfilled result, S done,
           lines ++ [status_line (S done) total (label it) elapsed])
      | Rejected e => (Rejected e, done, lines)
      end
  | None => (exec it, done, lines)
  end.

(** Modelled from the spec: [queue] comes from the [async] package, which
    is missing from the sources.  The queue keeps one backlog in the order of
    submission and a pool of [concurrency] lanes: when a lane is free and a
    task waits, it hands the oldest waiting task to the worker; the lane is
    busy until the worker calls [callback]. *)
Definition q_process (now : Z) (s : QueueState) : option QueueState :=
  match q_tasks s with
  | task :: rest =>
      if decide (size (q_workers s) < concurrency) then
        Some {| numDone := numDone s;
                logged := logged s;
                q_tasks := rest;
                q_workers := <[slot task := (task, now)]> (q_workers s);
                p := p s;
                all_p := all_p s |}
      else None
  | [] => None
  end.

(** The rest of the worker once [exec(item)] has settled: [timedExec]
    returns or throws, the task's promise is resolved or rejected, and
    [callback()] frees the worker. *)
Definition worker_settle (i : nat) (now : Z) (s : QueueState)
  : option QueueState :=
  match q_workers s !! i with
  | Some (task, startTime) =>
      let '(outcome, done, lines) :=
        timedExec startTime now (length (p s)) (item task)
                  (numDone s) (logged s) in
      let p' := <[slot task := Some outcome]> (p s) in
      Some {| numDone := done;
              logged := lines;
              q_tasks := q_tasks s;
              q_workers := delete i (q_workers s);
              p := p';
              all_p := Promise_all_react p' outcome (all_p s) |}
  | None => None
  end.

(** One turn of the event loop. *)
Inductive Event : Type :=
| Process (now : Z)
| Settle (i : nat) (now : Z).

Definition step (s : QueueState) (ev : Event) : option QueueState :=
  match ev with
  | Process now => q_process now s
  | Settle i now => worker_settle i now s
  end.

Fixpoint run (s : QueueState) (evs : list Event) : option QueueState :=
  match evs with
  | [] => Some s
  | ev :: rest =>
      match step s ev with
      | Some s' => run s' rest
      | None => None
      end
  end.

(** One iteration of the loop over [items]:
    [p.push(new Promise((resolve, reject) => q.push({ item, resolve, reject })))]. *)
Definition submit (s : QueueState) (it : TItem) : QueueState :=
  {| numDone := numDone s;
     logged := logged s;
     q_tasks := q_tasks s ++ [{| item := it; slot := length (p s) |}];
     q_workers := q_workers s;
     p := p s ++ [None];
     all_p := all_p s |}.

Definition fresh : QueueState :=
  {| numDone := 0; logged := []; q_tasks := []; q_workers := ∅;
     p := []; all_p := None |}.

(** The synchronous part of [queueExec]: every item is submitted, then
    [Promise.all(p)] is returned. *)
Definition queueExec (items : list TItem) : QueueState :=
  let s := foldl submit fresh items in
  {| numDone := numDone s;
     logged := logged s;
     q_tasks := q_tasks s;
     q_workers := q_workers s;
     p := p s;
     all_p := Promise_all (p s) |}.

(** Nothing is left to do: the queue is drained and idle. *)
Definition idle (s : QueueState) : Prop :=
  q_tasks s = [] ∧ q_workers s = ∅.

(** *** Vocabulary for the properties of a run *)

(** The tasks in the order of their submission. *)
Definition task_list (items : list TItem) : list TaskExec :=
  imap (λ i it, {| item := it; slot := i |}) items.

(** Number of tasks handed to the worker so far. *)
Definition started (s : QueueState) : nat := length (p s) - length (q_tasks s).

(** What is left to do: a task waiting costs two steps, a worker one. *)
Definition measure (s : QueueState) : nat :=
  2 * length (q_tasks s) + size (q_workers s).

(** What holds of every state that a run of [queueExec items] reaches. *)
Record queue_inv (items : list TItem) (s : QueueState) : Prop := {
  inv_length : length (p s) = length items;
  inv_tasks : q_tasks s = drop (started s) (task_list items);
  inv_workers : ∀ i task start,
    q_workers s !! i = Some (task, start) →
    i < started s ∧ task_list items !! i = Some task ∧ p s !! i = Some None;
  inv_bound : size (q_workers s) ≤ concurrency;
  inv_settled : ∀ i it,
    i < started s → q_workers s !! i = None → items !! i = Some it →
    p s !! i = Some (Some (exec it));
  inv_waiting : ∀ i,
    started s ≤ i → i < length items → p s !! i = Some None;
}.

(** The counter and the log in every state of a run over [total] items. *)
Definition counter_inv (total : nat) (s : QueueState) : Prop :=
  length (logged s) = numDone s ∧
  match messageCallback with
  | Some label =>
      numDone s = fulfilled_count (p s) ∧
      ∀ k line, logged s !! k = Some line →
        ∃ it ms, line = status_line (S k) total (label it) ms
  | None => numDone s = 0
  end.

(** The promise index of every task handed to the worker during a run, in
    the order of the hand-over. *)
Fixpoint start_order (s : QueueState) (evs : list Event) : list nat :=
  match evs with
  | [] => []
  | ev :: rest =>
      match step s ev with
      | Some s' =>
          match ev, q_tasks s with
          | Process _, task :: _ => slot task :: start_order s' rest
          | _, _ => start_order s' rest
          end
      | None => []
      end
  end.

End QueueExec.

Arguments TaskExec : clear implicits.
Arguments QueueState : clear implicits.
Arguments inv_length {TItem TResult concurrency exec items s} _.
Arguments inv_tasks {TItem TResult concurrency exec items s} _.
Arguments inv_workers {TItem TResult concurrency exec items s} _.
Arguments inv_bound {TItem TResult concurrency exec items s} _.
Arguments inv_settled {TItem TResult concurrency exec items s} _.
Arguments inv_waiting {TItem TResult concurrency exec items s} _.

(** ** The [Packages] class *)

Section Packages.

(** [Package.chalkColor], the table of the colouring functions of [chalk],
    by index. *)
Variable chalkColor : nat → string → string.

(** Modelled from the spec: [execWithErrorAsync] is defined in [./utils],
    which is missing from the sources.  The script executor runs a command
    in the directory of a package and reports a failure as data, in the
    result, never as a rejection. *)
Variable execWithErrorAsync : string → Package → ExecAsyncResult.

(** [Package.nameColored]; the table has 15 entries. *)
Definition nameColored (pkg : Package) : string :=
  chalkColor (packageId pkg mod 15) (name (packageJson pkg)).

(** [queueExecOnAllPackageCore]: the label of a package when a message is
    given. *)
Definition messageCallback_of (message : option string)
  : option (Package → string) :=
  match message with
  | Some text =>
      if truthy_string text
      then Some (λ pkg, " " +:+ nameColored pkg +:+ ": " +:+ text)
      else None
  | None => None
  end.

Definition queueExecOnAllPackageCore {TResult} (packages : list Package)
  : QueueState Package TResult :=
  queueExec packages.

(** [queueExecOnAllPackage]: the verdict, once the results are there. *)
Definition queueExecOnAllPackage (s : QueueState Package ExecAsyncResult)
  : promise bool :=
  match all_p s with
  | Some (Fulfilled results) => Some (Fulfilled (reduceToSuccess results))
  | Some (Rejected e) => Some (Rejected e)
  | None => None
  end.

(** *** [forEachAsync] *)

(** What an observer of the sequential loop sees: the call of
    [exec(pkg)] on the package of index [i], and the end of its [await]. *)
Inductive SeqEvent : Type :=
| OpBegin (i : nat)
| OpEnd (i : nat).

(** The loop [for (const pkg of this.packages) results.push(await exec(pkg))],
    suspended at its [await] or finished. *)
Record SeqState (TResult : Type) : Type := {
  (** the call of [exec] whose [await] suspends the loop: the index of the
      package and the package *)
  awaited : option (nat * Package);
  seq_results : list TResult;
  (** what an observer has seen so far *)
  seq_trace : list SeqEvent;
  (** the promise that [forEachAsync] returned *)
  returned : promise (list TResult);
}.
Arguments awaited {TResult} s.
Arguments seq_results {TResult} s.
Arguments seq_trace {TResult} s.
Arguments returned {TResult} s.

(** The loop from the package of index [i] on: it calls [exec] on that
    package and suspends, or it has no package left and returns
    [results]. *)
Definition seq_enter {TResult} (packages : list Package) (i : nat)
    (results : list TResult) (trace : list SeqEvent) : SeqState TResult :=
  match packages !! i with
  | Some pkg =>
      {| awaited := Some (i, pkg); seq_results := results;
         seq_trace := trace ++ [OpBegin i]; returned := None |}
  | None =>
      {| awaited := None; seq_results := results; seq_trace := trace;
         returned := Some (Fulfilled results) |}
  end.

(** The awaited operation settles: its result is pushed and the loop goes
    on with the next package, or the rejected [await] throws out of the
    loop. *)
Definition seq_settle {TResult} (packages : list Package)
    (exec : Package → settled TResult) (s : SeqState TResult)
  : option (SeqState TResult) :=
  match awaited s with
  | Some (i, pkg) =>
      match exec pkg with
      | Fulfilled result =>
          Some (seq_enter packages (S i) (seq_results s ++ [result])
                  (seq_trace s ++ [OpEnd i]))
      | Rejected e =>
          Some {| awaited := None; seq_results := seq_results s;
                  seq_trace := seq_trace s ++ [OpEnd i];
                  returned := Some (Rejected e) |}
      end
  | None => None
  end.

(** The state after [n] settlements. *)
Fixpoint seq_run {TResult} (packages : list Package)
    (exec : Package → settled TResult) (s : SeqState TResult) (n : nat)
  : option (SeqState TResult) :=
  match n with
  | 0 => Some s
  | S n' =>
      match seq_run packages exec s n' with
      | Some s' => seq_settle packages exec s'
      | None => None
      end
  end.

Inductive ForEachAsync (TResult : Type) : Type :=
| InParallel (callback : option (Package → string))
             (s : QueueState Package TResult)
| InSequence (s : SeqState TResult).
Arguments InParallel {TResult} callback s.
Arguments InSequence {TResult} s.

(** The synchronous part of [forEachAsync]; [exec] is run by the steps
    that follow. *)
Definition forEachAsync {TResult} (packages : list Package)
    (exec : Package → settled TResult) (parallel : bool)
    (message : option string) : ForEachAsync TResult :=
  if parallel
  then InParallel (messageCallback_of message)
                  (queueExecOnAllPackageCore packages)
  else InSequence (seq_enter packages 0 [] []).

(** Operations begun and not yet ended after each event of a trace, from
    [n] of them at its start. *)
Fixpoint in_flight (n : nat) (trace : list SeqEvent) : list nat :=
  match trace with
  | [] => []
  | OpBegin _ :: rest => S n :: in_flight (S n) rest
  | OpEnd _ :: rest => pred n :: in_flight (pred n) rest
  end.

(** Operations begun and not yet ended at the end of a trace. *)
Definition in_flight_after (n : nat) (trace : list SeqEvent) : nat :=
  foldl (λ d ev, match ev with OpBegin _ => S d | OpEnd _ => pred d end)
        n trace.

(** *** [Packages.clean] *)

Record CleanState : Type := {
  c_numDone : nat;
  c_logged : list string;
  (** calls of [execCleanScript] whose [await] has not returned: by the
      index of their promise in [cleanP], the package, the script and
      [startTime] *)
  c_running : gmap nat (Package * string * Z);
  cleanP : list (promise ExecAsyncResult);
  c_all : promise (list ExecAsyncResult);
}.

Definition c_fresh : CleanState :=
  {| c_numDone := 0; c_logged := []; c_running := ∅; cleanP := [];
     c_all := None |}.

(** [cleanP.push(execCleanScript(pkg, cleanScript))]: the call runs up to
    its [await], having read [startTime]. *)
Definition clean_push (now : Z) (pkg : Package) (cleanScript : string)
    (s : CleanState) : CleanState :=
  {| c_numDone := c_numDone s;
     c_logged := c_logged s;
     c_running := <[length (cleanP s) := (pkg, cleanScript, now)]> (c_running s);
     cleanP := cleanP s ++ [None];
     c_all := c_all s |}.

(** One iteration of [for (const pkg of packages)]; [now] is the clock
    at that iteration. *)
Definition clean_visit (now : Z) (s : CleanState) (pkg : Package)
  : completion CleanState :=
  match getScript pkg "clean" with
  | Throw e => Throw e
  | Return cleanScript =>
      match cleanScript with
      | Some script =>
          if truthy_string script
          then Return (clean_push now pkg script s)
          else Return s
      | None => Return s
      end
  end.

Fixpoint clean_loop (clock : nat → Z) (k : nat) (s : CleanState)
    (pkgs : list Package) : completion CleanState :=
  match pkgs with
  | [] => Return s
  | pkg :: rest =>
      match clean_visit (clock k) s pkg with
      | Return s' => clean_loop clock (S k) s' rest
      | Throw e => Throw e
      end
  end.

(** The synchronous part of [Packages.clean], up to [Promise.all(cleanP)];
    an exception thrown there rejects the promise that [clean] returns.
    [clock k] is [Date.now()] during the iteration of index [k]. *)
Definition clean (packages : list Package) (clock : nat → Z)
  : completion CleanState :=
  match clean_loop clock 0 c_fresh packages with
  | Return s =>
      Return {| c_numDone := c_numDone s;
                c_logged := c_logged s;
                c_running := c_running s;
                cleanP := cleanP s;
                c_all := Promise_all (cleanP s) |}
  | Throw e => Throw e
  end.

(** The rest of [execCleanScript] once [execWithErrorAsync] has settled. *)
Definition clean_settle (status : bool) (i : nat) (now : Z) (s : CleanState)
  : option CleanState :=
  match c_running s !! i with
  | Some (pkg, cleanScript, startTime) =>
      let result := execWithErrorAsync cleanScript pkg in
      let cleanP' := <[i := Some (Fulfilled result)]> (cleanP s) in
      let elapsed := (now - startTime)%Z in
      Some {| c_numDone := if status then S (c_numDone s) else c_numDone s;
              c_logged :=
                if status
                then c_logged s ++
                     [status_line (S (c_numDone s)) (length (cleanP s))
                        (nameColored pkg +:+ ": " +:+ cleanScript) elapsed]
                else c_logged s;
              c_running := delete i (c_running s);
              cleanP := cleanP';
              c_all := Promise_all_react cleanP' (Fulfilled result) (c_all s) |}
  | None => None
  end.

(** A run of [clean]: the events are the settlements, each with the index
    of the promise and the clock. *)
Fixpoint clean_run (status : bool) (s : CleanState) (evs : list (nat * Z))
  : option CleanState :=
  match evs with
  | [] => Some s
  | (i, now) :: rest =>
      match clean_settle status i now s with
      | Some s' => clean_run status s' rest
      | None => None
      end
  end.


(** [return !results.some(result => result.error)] after
    [await Promise.all(cleanP)]. *)
Definition clean_verdict (s : CleanState) : promise bool :=
  match c_all s with
  | Some (Fulfilled results) => Some (Fulfilled (reduceToSuccess results))
  | Some (Rejected e) => Some (Rejected e)
  | None => None
  end.

(** Specification of the loop of [clean]: the packages whose ["clean"]
    script is a non-empty string, with the script. *)
Definition clean_targets (packages : list Package) : list (Package * string) :=
  omap (λ pkg,
          match getScript pkg "clean" with
          | Return (Some script) =>
              if truthy_string script then Some (pkg, script) else None
          | _ => None
          end) packages.

(** *** Vocabulary for the properties of a run *)

(** The results of the operations that [clean] starts, in their order. *)
Definition clean_results (packages : list Package) : list ExecAsyncResult :=
  (λ target, execWithErrorAsync target.2 target.1) <$> clean_targets packages.

(** What holds of every state that a run of [clean] reaches, over the
    operations it started. *)
Record clean_inv (status : bool) (targets : list (Package * string)) (s : CleanState)
  : Prop := {
  ci_length : length (cleanP s) = length targets;
  ci_running : ∀ i target start,
    c_running s !! i = Some (target, start) →
    targets !! i = Some target ∧ cleanP s !! i = Some None;
  ci_settled : ∀ i target,
    targets !! i = Some target → c_running s !! i = None →
    cleanP s !! i =
      Some (Some (Fulfilled (execWithErrorAsync target.2 target.1)));
  ci_all : c_all s = Promise_all (cleanP s);
  ci_counter :
    if status
    then c_numDone s = fulfilled_count (cleanP s) ∧
         length (c_logged s) = c_numDone s ∧
         ∀ k line, c_logged s !! k = Some line →
           ∃ label ms, line = status_line (S k) (length targets) label ms
    else c_numDone s = 0 ∧ c_logged s = [];
}.

(** The trace of [n] operations run one after the other from index [i]. *)
Definition one_by_one (i n : nat) : list SeqEvent :=
  flat_map (λ k, [OpBegin k; OpEnd k]) (seq i n).

(** What holds of the sequential loop after [n] settlements: the results
    of the first [k] packages are in, and the loop awaits the package of
    index [k], or has returned, or was thrown out of by the rejection of
    that package. *)
Definition seq_inv {TResult} (packages : list Package)
    (exec : Package → settled TResult) (n : nat) (s : SeqState TResult)
  : Prop :=
  ∃ k, Forall2 (λ pkg r, exec pkg = Fulfilled r)
               (take k packages) (seq_results s) ∧
    match awaited s, returned s with
    | Some (i, pkg), None =>
        n = k ∧ i = k ∧ packages !! k = Some pkg ∧
        seq_trace s = one_by_one 0 k ++ [OpBegin k]
    | None, Some (Fulfilled all) =>
        n = k ∧ k = length packages ∧ all = seq_results s ∧
        seq_trace s = one_by_one 0 k
    | None, Some (Rejected e) =>
        n = S k ∧ seq_trace s = one_by_one 0 (S k) ∧
        ∃ pkg, packages !! k = Some pkg ∧ exec pkg = Rejected e
    | _, _ => False
    end.

End Packages.

Arguments InParallel {TResult} callback s.
Arguments InSequence {TResult} s.
Arguments awaited {TResult} s.
Arguments seq_results {TResult} s.
Arguments seq_trace {TResult} s.
Arguments returned {TResult} s.
Arguments ci_length {execWithErrorAsync status targets s} _.
Arguments ci_running {execWithErrorAsync status targets s} _.
Arguments ci_settled {execWithErrorAsync status targets s} _.
Arguments ci_all {execWithErrorAsync status targets s} _.
Arguments ci_counter {execWithErrorAsync status targets s} _.

(** ** Sample inputs *)

Module Sample.

Definition manifest (title : string) (table : option (gmap string string))
  : IPackage :=
  {| name := title; version := "0.1.0"; scripts := table;
     dependencies := None; devDependencies := None |}.

Definition package (id : nat) (title : string)
    (table : option (gmap string string)) : Package :=
  (Package_new id (title +:+ "/package.json") (manifest title table)).1.

(** Five packages: two whose ["clean"] script succeeds, one whose script
    fails, two without a ["clean"] script. *)
Definition five : list Package :=
  [ package 0 "alpha" (Some (<["clean" := "rimraf dist"]> (<["build" := "tsc"]> ∅)));
    package 1 "beta" (Some (<["build" := "tsc"]> ∅));
    package 2 "gamma" (Some (<["clean" := "rimraf lib"]> ∅));
    package 3 "delta" (Some (<["clean" := "exit 1"]> ∅));
    package 4 "epsilon" (Some ∅) ].

(** A package whose ["clean"] script is the empty string, and one whose
    manifest has no [scripts] field. *)
Definition blank : Package :=
  package 0 "blank" (Some (<["clean" := EmptyString]> ∅)).

Definition bare : Package := package 0 "bare" None.

Definition chalkColor (index : nat) (text : string) : string := text.

(** A script executor for which only ["exit 1"] fails. *)
Definition execWithErrorAsync (command : string) (pkg : Package)
  : ExecAsyncResult :=
  {| error := if String.eqb command "exit 1"
              then Some "Command failed: exit 1" else None;
     stdout := EmptyString;
     stderr := EmptyString |}.

Definition clock (k : nat) : Z := Z.of_nat k.

(** An operation on numbers that always returns, and one that rejects on
    [2]. *)
Definition tenfold (n : nat) : settled nat := Fulfilled (10 * n).

Definition tenfold_but_2 (n : nat) : settled nat :=
  if Nat.eqb n 2 then Rejected (Thrown "boom") else Fulfilled (10 * n).

Definition label (n : nat) : string := "item " +:+ pretty n.

(** Three items on two lanes; the second item settles first, the first
    one last. *)
Definition out_of_order : list Event :=
  [Process 0; Process 1; Settle 1 5; Process 6; Settle 2 8; Settle 0 9].

(** An operation on packages that returns the result of the ["clean"]
    script, failures included. *)
Definition run_clean (pkg : Package) : settled ExecAsyncResult :=
  match getScript pkg "clean" with
  | Return (Some script) => Fulfilled (execWithErrorAsync script pkg)
  | _ => Fulfilled (execWithErrorAsync "exit 1" pkg)
  end.

End Sample.

(** ** Discovery of the packages *)

(** An entry of a directory, as [fs.readdirSync(dir, { withFileTypes: true })]
    lists it: a directory with its own entries, a regular file, or anything
    else (a symbolic link, a socket, ...), for which both [isDirectory()]
    and [isFile()] are false. *)
Local Unset Elimination Schemes.
Inductive Dirent : Type :=
| Directory (entry : string) (files : list Dirent)
| RegularFile (entry : string)
| OtherEntry (entry : string).
Local Set Elimination Schemes.

(** [Package.chalkColor] by the names of the colours of [chalk]. *)
Definition chalkColor_table : list string :=
  [ "red"; "green"; "yellow"; "blue"; "magenta"; "cyan"; "white"; "grey";
    "redBright"; "greenBright"; "yellowBright"; "blueBright";
    "magentaBright"; "cyanBright"; "whiteBright" ].

(** The [color] getter:
    [Package.chalkColor[this.packageId % Package.chalkColor.length]];
    [None] would be [undefined]. *)
Definition color (pkg : Package) : option string :=
  chalkColor_table !! (packageId pkg mod length chalkColor_table).

Section Load.

(** [path.join]. *)
Variable path_join : string → string → string.

(** [require] of a manifest, by the name of the file; it throws on a file
    that cannot be read or parsed. *)
Variable require : string → completion IPackage.

(** [new Package(packageJsonFileName)], with the read of the manifest that
    the constructor does. *)
Definition Package_load (packageCount : nat) (fileName : string)
  : completion (Package * nat) :=
  match require fileName with
  | Return json => Return (Package_new packageCount fileName json)
  | Throw e => Throw e
  end.

(** The callback of [files.map] in [Packages.loadCore], on one entry of
    the directory [dir]; the packages found are returned with the new
    value of [Package.packageCount]. *)
Fixpoint loadCore_entry (dir : string) (packageCount : nat) (dirent : Dirent)
  {struct dirent} : completion (list Package * nat) :=
  match dirent with
  | Directory entry files =>
      if String.eqb entry "node_modules" then Return ([], packageCount)
      else
        (fix loadCore (packageCount : nat) (files : list Dirent) {struct files}
           : completion (list Package * nat) :=
           match files with
           | [] => Return ([], packageCount)
           | dirent :: rest =>
               match loadCore_entry (path_join dir entry) packageCount dirent with
               | Return (found, count) =>
                   match loadCore count rest with
                   | Return (more, count') => Return (found ++ more, count')
                   | Throw e => Throw e
                   end
               | Throw e => Throw e
               end
           end) packageCount files
  | RegularFile entry =>
      if String.eqb entry "package.json" then
        match Package_load packageCount (path_join dir "package.json") with
        | Return (pkg, count) => Return ([pkg], count)
        | Throw e => Throw e
        end
      else Return ([], packageCount)
  | OtherEntry _ => Return ([], packageCount)
  end.

(** [Packages.loadCore(dir)], where [files] is what [readdirSync] lists
    for [dir]. *)
Fixpoint loadCore (dir : string) (packageCount : nat) (files : list Dirent)
  : completion (list Package * nat) :=
  match files with
  | [] => Return ([], packageCount)
  | dirent :: rest =>
      match loadCore_entry dir packageCount dirent with
      | Return (found, count) =>
          match loadCore dir count rest with
          | Return (more, count') => Return (found ++ more, count')
          | Throw e => Throw e
          end
      | Throw e => Throw e
      end
  end.

(** [Packages.load(dirs)]: each directory comes with its listing. *)
Fixpoint load (packageCount : nat) (dirs : list (string * list Dirent))
  : completion (list Package * nat) :=
  match dirs with
  | [] => Return ([], packageCount)
  | (dir, files) :: rest =>
      match loadCore dir packageCount files with
      | Return (found, count) =>
          match load count rest with
          | Return (more, count') => Return (found ++ more, count')
          | Throw e => Throw e
          end
      | Throw e => Throw e
      end
  end.

(** *** Vocabulary for the properties of the discovery *)

(** The manifests that the discovery reads under one entry of [dir]: the
    files called [package.json], in the order of the listings, directory
    by directory, nothing below a directory called [node_modules]. *)
Fixpoint manifests_entry (dir : string) (dirent : Dirent) {struct dirent}
  : list string :=
  match dirent with
  | Directory entry files =>
      if String.eqb entry "node_modules" then []
      else
        (fix manifests (files : list Dirent) {struct files} : list string :=
           match files with
           | [] => []
           | dirent :: rest =>
               manifests_entry (path_join dir entry) dirent ++ manifests rest
           end) files
  | RegularFile entry =>
      if String.eqb entry "package.json"
      then [path_join dir "package.json"] else []
  | OtherEntry _ => []
  end.

Fixpoint manifests (dir : string) (files : list Dirent) : list string :=
  match files with
  | [] => []
  | dirent :: rest => manifests_entry dir dirent ++ manifests dir rest
  end.

Definition manifests_of (dirs : list (string * list Dirent)) : list string :=
  flat_map (λ root, manifests root.1 root.2) dirs.

(** The packages of a list of manifests, constructed one after the
    other. *)
Fixpoint construct_all (packageCount : nat) (fileNames : list string)
  : completion (list Package * nat) :=
  match fileNames with
  | [] => Return ([], packageCount)
  | fileName :: rest =>
      match Package_load packageCount fileName with
      | Return (pkg, count) =>
          match construct_all count rest with
          | Return (more, count') => Return (pkg :: more, count')
          | Throw e => Throw e
          end
      | Throw e => Throw e
      end
  end.

End Load.

(** A listing with the content of every directory called [node_modules]
    taken out. *)
Fixpoint prune (dirent : Dirent) : Dirent :=
  match dirent with
  | Directory entry files =>
      if String.eqb entry "node_modules" then Directory entry []
      else Directory entry (map prune files)
  | _ => dirent
  end.

Definition prune_root (root : string * list Dirent) : string * list Dirent :=
  (root.1, map prune root.2).

(** ** More vocabulary for the properties of [queueExec] *)

(** The promise index of every settlement of a run, in their order. *)
Definition settle_order (evs : list Event) : list nat :=
  omap (λ ev, match ev with Settle i _ => Some i | Process _ => None end) evs.

(** The reason of the first settlement of a run that is a rejection. *)
Fixpoint first_rejection {TItem TResult} (exec : TItem → settled TResult)
    (items : list TItem) (evs : list Event) : option exn :=
  match evs with
  | [] => None
  | Settle i _ :: rest =>
      match exec <$> items !! i with
      | Some (Rejected e) => Some e
      | _ => first_rejection exec items rest
      end
  | Process _ :: rest => first_rejection exec items rest
  end.

(** ** [noHoistInstall] *)

(** The calls that [Package.noHoistInstall] makes on the file system and
    the shell. *)
Inductive IoCall : Type :=
| CopyFile (source target : string)
| Exec (command cwd : string)
| Unlink (file : string).

Section Install.

(** [path.join] and [path.dirname]. *)
Variable path_join : string → string → string.
Variable path_dirname : string → string.

(** [copyFileAsync] and [unlinkAsync] of [./utils], by the outcome of a
    call. *)
Variable copyFileAsync : string → string → settled unit.
Variable unlinkAsync : string → settled unit.

(** Modelled from the spec: [execWithErrorAsync] of [./utils] reports a
    failure of the command as data, in the result, never as a rejection. *)
Variable execWithErrorAsync : string → Package → ExecAsyncResult.

(** The [directory] getter. *)
Definition directory (pkg : Package) : string :=
  path_dirname (packageJsonFileName pkg).

Definition npmCommand : string := "npm i --no-package-lock --no-shrinkwrap".

(** [Package.noHoistInstall(repoRoot)]: its outcome and the calls it has
    made; a rejected [await] throws out of the function. *)
Definition Package_noHoistInstall (repoRoot : string) (pkg : Package)
  : settled ExecAsyncResult * list IoCall :=
  let rootNpmRC := path_join repoRoot ".npmrc" in
  let npmRC := path_join (directory pkg) ".npmrc" in
  match copyFileAsync rootNpmRC npmRC with
  | Rejected e => (Rejected e, [CopyFile rootNpmRC npmRC])
  | Fulfilled _ =>
      let result := execWithErrorAsync npmCommand pkg in
      let calls :=
        [CopyFile rootNpmRC npmRC; Exec npmCommand (directory pkg);
         Unlink npmRC] in
      match unlinkAsync npmRC with
      | Rejected e => (Rejected e, calls)
      | Fulfilled _ => (Fulfilled result, calls)
      end
  end.

(** [Packages.noHoistInstall(repoRoot)]: the operation and the message it
    gives to [queueExecOnAllPackage]. *)
Definition Packages_noHoistInstall_exec (repoRoot : string) (pkg : Package)
  : settled ExecAsyncResult :=
  (Package_noHoistInstall repoRoot pkg).1.

Definition Packages_noHoistInstall_message : option string := Some "npm i".

End Install.

(** [Packages.cleanNodeModules()]: the message it gives to
    [queueExecOnAllPackage]. *)
Definition Packages_cleanNodeModules_message : option string :=
  Some "rimraf node_modules".

(** ** More sample inputs *)

Module SampleRepo.

Definition path_join (a b : string) : string := a +:+ "/" +:+ b.

(** A repository with three manifests of its own and two below
    directories called [node_modules]. *)
Definition tree : list Dirent :=
  [ RegularFile "package.json";
    Directory "packages"
      [ Directory "alpha"
          [ RegularFile "package.json";
            Directory "node_modules"
              [ Directory "dep" [RegularFile "package.json"] ] ];
        Directory "beta" [RegularFile "README.md"; RegularFile "package.json"] ];
    Directory "node_modules" [RegularFile "package.json"];
    OtherEntry "link" ].

(** The same repository before its dependencies were installed. *)
Definition bare_tree : list Dirent :=
  [ RegularFile "package.json";
    Directory "packages"
      [ Directory "alpha"
          [ RegularFile "package.json"; Directory "node_modules" [] ];
        Directory "beta" [RegularFile "README.md"; RegularFile "package.json"] ];
    Directory "node_modules" [];
    OtherEntry "link" ].

(** Every manifest can be read, except below [node_modules]. *)
Definition require (fileName : string) : completion IPackage :=
  if bool_decide (fileName ∈ ["repo/package.json";
                              "repo/packages/alpha/package.json";
                              "repo/packages/beta/package.json"])
  then Return (Sample.manifest fileName (Some ∅))
  else Throw (Thrown "Unexpected token").

(** The root [.npmrc] can be copied everywhere but into [delta]; every
    file can be removed. *)
Definition copyFileAsync (source target : string) : settled unit :=
  if String.eqb target "delta/.npmrc"
  then Rejected (Thrown "EACCES") else Fulfilled ().

Definition unlinkAsync (file : string) : settled unit := Fulfilled ().

(** The directory of a sample package is its name. *)
Definition path_dirname (fileName : string) : string :=
  String.substring 0 (String.length fileName - String.length "/package.json")
    fileName.

(** A script executor for which nothing fails. *)
Definition execWithErrorAsync (command : string) (pkg : Package)
  : ExecAsyncResult :=
  {| error := None; stdout := EmptyString; stderr := EmptyString |}.

End SampleRepo.

(** * Properties *)

(** ** The [Package] flags *)

Lemma apply_op_flags (pkg : Package) (op : PackageOp) :
  (matched pkg = true → matched (apply_op pkg op) = true) ∧
  (markForBuild pkg = true → markForBuild (apply_op pkg op) = true) ∧
  ((matched pkg = true → markForBuild pkg = true) →
   matched (apply_op pkg op) = true → markForBuild (apply_op pkg op) = true).
Proof.
  destruct op; cbn; unfold matched, markForBuild; cbn; tauto.
Qed.

Lemma apply_ops_snoc (pkg : Package) (ops : list PackageOp) (op : PackageOp) :
  apply_ops pkg (ops ++ [op]) = apply_op (apply_ops pkg ops) op.
Proof. unfold apply_ops. by rewrite foldl_app. Qed.

(** C8.  A new package has both flags down; [setMatched] raises both,
    [setMarkForBuild] raises [markForBuild] and leaves [matched]; no member
    lowers a flag; hence after every sequence of operations on a new package
    [matched] implies [markForBuild]. *)
Theorem matched_implies_markForBuild
    (count : nat) (file : string) (json : IPackage) (ops : list PackageOp) :
  let pkg0 := (Package_new count file json).1 in
  matched pkg0 = false ∧ markForBuild pkg0 = false ∧
  (∀ pkg, matched (setMatched pkg) = true ∧ markForBuild (setMatched pkg) = true) ∧
  (∀ pkg, matched (setMarkForBuild pkg) = matched pkg ∧
          markForBuild (setMarkForBuild pkg) = true) ∧
  (∀ pkg op, (matched pkg = true → matched (apply_op pkg op) = true) ∧
             (markForBuild pkg = true → markForBuild (apply_op pkg op) = true)) ∧
  (matched (apply_ops pkg0 ops) = true → markForBuild (apply_ops pkg0 ops) = true).
Proof.
  cbn zeta. do 4 (split; [done|]). split.
  - intros pkg op. destruct (apply_op_flags pkg op) as (Hm & Hb & _). done.
  - induction ops as [|op ops IH] using rev_ind; [done|].
    rewrite apply_ops_snoc. by apply apply_op_flags.
Qed.

(** ** [getScript] *)


(** ** The verdict *)

Lemma reduceToSuccess_false (results : list ExecAsyncResult) :
  reduceToSuccess results = false ↔
  ∃ result, result ∈ results ∧ truthy_error result = true.
Proof.
  unfold reduceToSuccess. rewrite negb_false_iff, existsb_exists.
  split; intros (r & Hin & Hr); exists r; split; try done;
    by apply list_elem_of_In.
Qed.

Lemma reduceToSuccess_true (results : list ExecAsyncResult) :
  reduceToSuccess results = true ↔
  ∀ result, result ∈ results → truthy_error result = false.
Proof.
  destruct (reduceToSuccess results) eqn:E.
  - split; [|done]. intros _ r Hr.
    destruct (truthy_error r) eqn:Er; [|done].
    assert (reduceToSuccess results = false) as Hf
      by (apply reduceToSuccess_false; eauto).
    congruence.
  - split; [done|]. intros Hall.
    apply reduceToSuccess_false in E as (r & Hin & Hr).
    rewrite (Hall r Hin) in Hr. done.
Qed.

(** C1.  The verdict is [false] exactly when some result has a truthy
    error; it is [true] for no result at all and when every error is falsy;
    and it is what [clean] and [queueExecOnAllPackage] return from the
    results they await. *)
Theorem reduceToSuccess_spec (results : list ExecAsyncResult) :
  (reduceToSuccess results = false ↔
     ∃ result, result ∈ results ∧ truthy_error result = true) ∧
  reduceToSuccess [] = true ∧
  ((∀ result, result ∈ results → truthy_error result = false) →
     reduceToSuccess results = true) ∧
  (∀ s : CleanState, c_all s = Some (Fulfilled results) →
     clean_verdict s = Some (Fulfilled (reduceToSuccess results))) ∧
  (∀ s : QueueState Package ExecAsyncResult,
     all_p s = Some (Fulfilled results) →
     queueExecOnAllPackage s = Some (Fulfilled (reduceToSuccess results))).
Proof.
  split; [apply reduceToSuccess_false|].
  split; [done|].
  split; [apply reduceToSuccess_true|].
  split; intros s Hs.
  - unfold clean_verdict. by rewrite Hs.
  - unfold queueExecOnAllPackage. by rewrite Hs.
Qed.

(** ** Facts about lists of promises *)

Section Promises.

Context {A : Type}.
Implicit Types (ps : list (promise A)) (o : settled A).

Lemma all_fulfilled_pending ps (i : nat) :
  ps !! i = Some None → all_fulfilled ps = None.
Proof.
  intros Hi. apply mapM_None, Exists_exists.
  exists None. split; [|done]. by eapply list_elem_of_lookup_2.
Qed.

Lemma all_fulfilled_lookup ps (rs : list A) (i : nat) :
  all_fulfilled ps = Some rs →
  ps !! i = (λ r, Some (Fulfilled r)) <$> rs !! i.
Proof.
  intros H. apply mapM_Some_1 in H.
  revert i. induction H as [|pr r ps rs Hpr _ IH]; intros [|i]; cbn; try done.
  destruct pr as [[a|e]|]; cbn in Hpr; by simplify_eq.
Qed.

Lemma all_fulfilled_intro ps (rs : list A) :
  length ps = length rs →
  (∀ i r, rs !! i = Some r → ps !! i = Some (Some (Fulfilled r))) →
  all_fulfilled ps = Some rs.
Proof.
  intros Hlen H. apply mapM_Some_2.
  revert rs Hlen H. induction ps as [|pr ps IH]; intros [|r rs] Hlen H;
    simplify_eq/=; constructor.
  - specialize (H 0 r eq_refl). by simplify_eq/=.
  - apply IH; [done|]. intros i r' Hi. exact (H (S i) r' Hi).
Qed.

Lemma fulfilled_count_insert ps (i : nat) o :
  ps !! i = Some None →
  fulfilled_count (<[i := Some o]> ps) =
  (if is_fulfilled o then 1 else 0) + fulfilled_count ps.
Proof.
  unfold fulfilled_count. revert i.
  induction ps as [|pr ps IH]; intros [|i] Hi; simplify_eq/=.
  - destruct o; cbn; lia.
  - specialize (IH _ Hi).
    destruct (fulfilled_value pr), o; cbn in *; lia.
Qed.

Lemma all_inv_init ps :
  (∀ i e, ps !! i ≠ Some (Some (Rejected e))) → all_inv ps (Promise_all ps).
Proof.
  intros H. unfold Promise_all, all_inv.
  destruct (all_fulfilled ps) eqn:E; cbn; done.
Qed.

Lemma all_inv_react ps (i : nat) o (all : promise (list A)) :
  all_inv ps all → ps !! i = Some None →
  all_inv (<[i := Some o]> ps) (Promise_all_react (<[i := Some o]> ps) o all).
Proof.
  intros Hinv Hi. pose proof (lookup_lt_Some _ _ _ Hi) as Hlt.
  destruct all as [[rs|e]|]; cbn in *.
  - rewrite (all_fulfilled_pending _ _ Hi) in Hinv. done.
  - destruct Hinv as [j Hj]. exists j.
    rewrite list_lookup_insert_ne; [done|]. intros ->. congruence.
  - destruct Hinv as [_ Hno]. destruct o as [r|e].
    + apply all_inv_init. intros j e.
      destruct (decide (i = j)) as [->|Hne].
      * rewrite list_lookup_insert_eq by done. done.
      * rewrite list_lookup_insert_ne by done. apply Hno.
    + exists i. by rewrite list_lookup_insert_eq.
Qed.

(** A settled [Promise.all] is not touched by later settlements. *)
Lemma Promise_all_react_settled ps o (all : promise (list A)) :
  is_Some all → Promise_all_react ps o all = all.
Proof. by intros [x ->]. Qed.

End Promises.

(** ** The rendering of the elapsed time *)






(** ** Runs of [queueExec] *)

Section QueueFacts.

Context {TItem TResult : Type}.
Variable concurrency : nat.
Variable exec : TItem → settled TResult.
Variable messageCallback : option (TItem → string).

Local Abbreviation State := (QueueState TItem TResult).
Local Abbreviation step := (step concurrency exec messageCallback).
Local Abbreviation run := (run concurrency exec messageCallback).
Local Abbreviation queue_inv := (queue_inv concurrency exec).
Local Abbreviation counter_inv := (counter_inv messageCallback).
Local Abbreviation start_order :=
  (start_order concurrency exec messageCallback).

Lemma foldl_submit (items : list TItem) (s : State) :
  let s' := foldl submit s items in
  numDone s' = numDone s ∧ logged s' = logged s ∧
  q_workers s' = q_workers s ∧ all_p s' = all_p s ∧
  p s' = p s ++ replicate (length items) None ∧
  q_tasks s' =
    q_tasks s ++ imap (λ i it, {| item := it; slot := length (p s) + i |}) items.
Proof.
  revert s. induction items as [|it items IH]; intros s; cbn zeta.
  - cbn. by rewrite !app_nil_r.
  - cbn [foldl]. destruct (IH (submit s it)) as (-> & -> & -> & -> & -> & ->).
    cbn. rewrite length_app, <- !app_assoc. cbn.
    do 5 (split; [done|]). f_equal. cbn. f_equal.
    + f_equal. lia.
    + apply imap_ext. intros i x _. cbn. f_equal. lia.
Qed.

Lemma queueExec_unfold (items : list TItem) :
  (queueExec items : State) =
  {| numDone := 0; logged := []; q_tasks := task_list items; q_workers := ∅;
     p := replicate (length items) None;
     all_p := Promise_all (replicate (length items) None) |}.
Proof.
  unfold queueExec.
  destruct (foldl_submit items fresh) as (-> & -> & -> & _ & -> & ->).
  done.
Qed.

Lemma task_list_lookup (items : list TItem) (i : nat) (task : TaskExec TItem) :
  task_list items !! i = Some task ↔
  items !! i = Some (item task) ∧ slot task = i.
Proof.
  unfold task_list. rewrite list_lookup_imap_Some. split.
  - intros (it & Hit & ->). done.
  - intros [H <-]. exists (item task). split; [done|]. by destruct task.
Qed.

Lemma timedExec_outcome (startTime now : Z) (total : nat) (it : TItem)
    (done : nat) (lines : list string) :
  (timedExec exec messageCallback startTime now total it done lines).1.1
  = exec it.
Proof.
  unfold timedExec. destruct messageCallback; [|done]. by destruct (exec it).
Qed.

Lemma run_app (s : State) (evs1 evs2 : list Event) :
  run s (evs1 ++ evs2) = run s evs1 ≫= λ s', run s' evs2.
Proof.
  revert s. induction evs1 as [|ev evs1 IH]; intros s; cbn; [done|].
  destruct (step s ev); cbn; [apply IH|done].
Qed.

Lemma run_snoc (s s' : State) (evs : list Event) (ev : Event) :
  run s (evs ++ [ev]) = Some s' ↔
  ∃ s1, run s evs = Some s1 ∧ step s1 ev = Some s'.
Proof.
  rewrite run_app. split.
  - destruct (run s evs) as [s1|]; cbn; [|done].
    destruct (step s1 ev) eqn:E; [|done]. intros ?; simplify_eq. eauto.
  - intros (s1 & -> & H). cbn. by rewrite H.
Qed.

(** A property of the start that every step keeps holds after every run. *)
Lemma run_invariant (P : State → Prop) (s s' : State) (evs : list Event) :
  (∀ s1 ev s2, P s1 → step s1 ev = Some s2 → P s2) →
  P s → run s evs = Some s' → P s'.
Proof.
  intros Hstep. revert s. induction evs as [|ev evs IH]; intros s Hs; cbn.
  - by intros [= <-].
  - destruct (step s ev) eqn:E; [|done]. apply IH. by eapply Hstep.
Qed.

Lemma queue_inv_started (items : list TItem) (s : State) :
  queue_inv items s →
  started s ≤ length items ∧ length (q_tasks s) + started s = length items.
Proof.
  intros [Hlen Htasks _ _ _ _]. unfold started in *.
  apply (f_equal length) in Htasks.
  rewrite length_drop in Htasks. unfold task_list in Htasks.
  rewrite length_imap in Htasks. lia.
Qed.

Lemma queue_inv_init (items : list TItem) : queue_inv items (queueExec items).
Proof.
  rewrite queueExec_unfold.
  assert (started
            ({| numDone := 0; logged := []; q_tasks := task_list items;
               q_workers := ∅; p := replicate (length items) None;
               all_p := Promise_all (replicate (length items) None) |} : State) = 0) as Hs.
  { unfold started, task_list. cbn. rewrite length_replicate, length_imap. lia. }
  split; rewrite ?Hs; cbn.
  - apply length_replicate.
  - done.
  - intros i task start Hi. by rewrite lookup_empty in Hi.
  - rewrite map_size_empty. lia.
  - intros; lia.
  - intros i _ Hi. by apply lookup_replicate_2.
Qed.

Lemma queue_inv_process (items : list TItem) (s s' : State) (now : Z) :
  queue_inv items s → q_process concurrency now s = Some s' →
  queue_inv items s' ∧ started s' = S (started s) ∧
  ∃ task, q_tasks s = task :: q_tasks s' ∧ slot task = started s.
Proof.
  intros Hinv Hp. pose proof (queue_inv_started _ _ Hinv) as [Hb Hsum].
  destruct Hinv as [Hlen Htasks Hwork Hbound Hset Hwait].
  unfold q_process in Hp.
  destruct (q_tasks s) as [|task rest] eqn:Eq; [done|].
  case_decide as Hlt; [|done]. simplify_eq. cbn in Hsum.
  assert (task_list items !! started s = Some task) as Htask.
  { rewrite <- (Nat.add_0_r (started s)), <- lookup_drop, <- Htasks. done. }
  assert (rest = drop (S (started s)) (task_list items)) as Hrest.
  { rewrite (drop_S _ _ _ Htask) in Htasks. by simplify_eq. }
  apply task_list_lookup in Htask as Htask'. destruct Htask' as [Hitem Hslot].
  assert (started
            ({| numDone := numDone s; logged := logged s; q_tasks := rest;
               q_workers := <[slot task:=(task, now)]> (q_workers s);
               p := p s; all_p := all_p s |} : State) = S (started s)) as Hs'.
  { unfold started in *. cbn. rewrite Eq in *. cbn in *. lia. }
  split; [|split; [done|by exists task]].
  split; rewrite ?Hs'; cbn.
  - done.
  - done.
  - intros i task' start. rewrite Hslot, lookup_insert.
    case_decide as Hi.
    + intros [= <- <-]. subst i. split; [lia|]. split; [done|].
      apply Hwait; lia.
    + intros H. destruct (Hwork _ _ _ H) as (? & ? & ?). split; [lia|done].
  - rewrite Hslot. rewrite map_size_insert_None; [lia|].
    destruct (q_workers s !! started s) as [[t st]|] eqn:E; [|done].
    destruct (Hwork _ _ _ E) as [? _]. lia.
  - intros i it Hi. rewrite Hslot, lookup_insert.
    case_decide; [done|]. intros Hn Hit. apply Hset; [lia|done..].
  - intros i Hi Hi'. apply Hwait; lia.
Qed.

Lemma queue_inv_settle (items : list TItem) (s s' : State) (i : nat) (now : Z) :
  queue_inv items s → worker_settle exec messageCallback i now s = Some s' →
  queue_inv items s' ∧ started s' = started s ∧ q_tasks s' = q_tasks s ∧
  q_workers s' = delete i (q_workers s) ∧
  ∃ it, items !! i = Some it ∧ p s !! i = Some None ∧
        p s' = <[i := Some (exec it)]> (p s) ∧
        all_p s' = Promise_all_react (p s') (exec it) (all_p s).
Proof.
  intros Hinv Hp.
  destruct Hinv as [Hlen Htasks Hwork Hbound Hset Hwait].
  unfold worker_settle in Hp.
  destruct (q_workers s !! i) as [[task start]|] eqn:Ew; [|done].
  destruct (Hwork _ _ _ Ew) as (Hi & Htask & Hpi).
  apply task_list_lookup in Htask as [Hitem Hslot].
  pose proof (timedExec_outcome start now (length (p s)) (item task)
                (numDone s) (logged s)) as Hout.
  destruct (timedExec _ _ _ _ _ _ _ _) as [[outcome done] lines].
  cbn in Hout. subst outcome. simplify_eq.
  assert (started
            ({| numDone := done; logged := lines; q_tasks := q_tasks s;
               q_workers := delete (slot task) (q_workers s);
               p := <[slot task := Some (exec (item task))]> (p s);
               all_p := Promise_all_react
                          (<[slot task := Some (exec (item task))]> (p s))
                          (exec (item task)) (all_p s) |} : State) = started s) as Hs'.
  { unfold started. cbn. by rewrite length_insert. }
  split; [|split; [done|split; [done|split; [done|]]]].
  - split; rewrite ?Hs'; cbn.
    + by rewrite length_insert.
    + done.
    + intros j task' start'. rewrite lookup_delete.
      case_decide as Hj; [done|]. intros H.
      destruct (Hwork _ _ _ H) as (? & ? & ?).
      rewrite list_lookup_insert_ne; done.
    + rewrite map_size_delete, Ew. cbn. lia.
    + intros j it Hj. rewrite lookup_delete. case_decide as Hji.
      * intros _ Hit. subst j. rewrite list_lookup_insert_eq.
        -- by simplify_eq.
        -- apply lookup_lt_Some in Hpi. done.
      * intros Hn Hit. rewrite list_lookup_insert_ne; [|done]. by apply Hset.
    + intros j Hj Hj'. rewrite list_lookup_insert_ne; [|lia]. by apply Hwait.
  - exists (item task). done.
Qed.

Lemma queue_inv_step (items : list TItem) (s s' : State) (ev : Event) :
  queue_inv items s → step s ev = Some s' → queue_inv items s'.
Proof.
  intros Hinv Hstep. destruct ev as [now|i now]; cbn in Hstep.
  - by destruct (queue_inv_process _ _ _ _ Hinv Hstep).
  - by destruct (queue_inv_settle _ _ _ _ _ Hinv Hstep).
Qed.

Lemma queue_inv_run (items : list TItem) (s : State) (evs : list Event) :
  run (queueExec items) evs = Some s → queue_inv items s.
Proof.
  apply run_invariant; [|apply queue_inv_init].
  intros s1 ev s2. apply queue_inv_step.
Qed.

(** *** The promise of [Promise.all(p)] *)

Lemma all_inv_run (items : list TItem) (s : State) (evs : list Event) :
  run (queueExec items) evs = Some s → all_inv (p s) (all_p s).
Proof.
  intros Hrun.
  refine (proj2 (run_invariant
                   (λ s, queue_inv items s ∧ all_inv (p s) (all_p s))
                   _ _ _ _ _ Hrun)).
  - intros s1 ev s2 [Hinv Hall] Hstep. split; [by eapply queue_inv_step|].
    destruct ev as [now|i now]; cbn in Hstep.
    + unfold q_process in Hstep. destruct (q_tasks s1); [done|].
      case_decide; [|done]. by simplify_eq.
    + destruct (queue_inv_settle _ _ _ _ _ Hinv Hstep)
        as (_ & _ & _ & _ & it & _ & Hpi & -> & ->).
      by apply all_inv_react.
  - split; [apply queue_inv_init|]. rewrite queueExec_unfold. cbn.
    apply all_inv_init. intros i e Hi.
    apply lookup_replicate in Hi as [? _]. done.
Qed.

(** In an idle state every promise of [p] holds the outcome of its item. *)
Lemma idle_settled (items : list TItem) (s : State) :
  queue_inv items s → idle s →
  ∀ i it, items !! i = Some it → p s !! i = Some (Some (exec it)).
Proof.
  intros Hinv [Ht Hw] i it Hit.
  apply (inv_settled Hinv); [| by rewrite Hw, lookup_empty | done].
  unfold started. rewrite Ht, (inv_length Hinv). cbn.
  apply lookup_lt_Some in Hit. lia.
Qed.

Lemma idle_all_fulfilled (items : list TItem) (s : State) (evs : list Event)
    (rs : list TResult) :
  run (queueExec items) evs = Some s → idle s →
  Forall2 (λ it r, exec it = Fulfilled r) items rs →
  all_p s = Some (Fulfilled rs).
Proof.
  intros Hrun Hidle Hrs.
  pose proof (queue_inv_run _ _ _ Hrun) as Hinv.
  pose proof (idle_settled _ _ Hinv Hidle) as Hp.
  pose proof (all_inv_run _ _ _ Hrun) as Hall.
  assert (all_fulfilled (p s) = Some rs) as Hful.
  { apply all_fulfilled_intro.
    - rewrite (inv_length Hinv). by eapply Forall2_length.
    - intros i r Hr.
      destruct (Forall2_lookup_r _ _ _ _ _ Hrs Hr) as (it & Hit & Hex).
      rewrite (Hp _ _ Hit), Hex. done. }
  unfold all_inv in Hall. destruct (all_p s) as [[rs'|e]|].
  - congruence.
  - destruct Hall as [i Hi].
    assert (i < length items) as Hlt
      by (rewrite <- (inv_length Hinv); by eapply lookup_lt_Some).
    apply lookup_lt_is_Some_2 in Hlt as [it Hit].
    destruct (Forall2_lookup_l _ _ _ _ _ Hrs Hit) as (r & _ & Hex).
    rewrite (Hp _ _ Hit), Hex in Hi. done.
  - destruct Hall as [Hn _]. congruence.
Qed.

(** *** Termination and progress *)

Lemma step_measure (s s' : State) (ev : Event) :
  step s ev = Some s' → measure s' < measure s.
Proof.
  unfold measure. destruct ev as [now|i now]; cbn.
  - unfold q_process. destruct (q_tasks s) as [|task rest]; [done|].
    case_decide; [|done]. intros [= <-]. cbn.
    rewrite map_size_insert. destruct (q_workers s !! slot task); cbn; lia.
  - unfold worker_settle.
    destruct (q_workers s !! i) as [[task start]|] eqn:Ew; [|done].
    destruct (timedExec _ _ _ _ _ _ _ _) as [[outcome done] lines].
    intros [= <-]. cbn.
    rewrite <- (insert_delete_id (q_workers s) i (task, start) Ew) at 2.
    rewrite map_size_insert_None by apply lookup_delete_eq. lia.
Qed.

Lemma run_measure (s s' : State) (evs : list Event) :
  run s evs = Some s' → length evs + measure s' ≤ measure s.
Proof.
  revert s. induction evs as [|ev evs IH]; intros s; cbn.
  - intros [= <-]. lia.
  - destruct (step s ev) as [s1|] eqn:E; [|done]. intros Hrun.
    apply step_measure in E. apply IH in Hrun. unfold measure in *. lia.
Qed.

Lemma not_idle_step (s : State) :
  1 ≤ concurrency → ¬ idle s → ∃ ev s', step s ev = Some s'.
Proof.
  intros HK Hn. destruct (size (q_workers s)) as [|n] eqn:E.
  - apply map_size_empty_iff in E.
    destruct (q_tasks s) as [|task rest] eqn:Et.
    { destruct Hn. by split. }
    exists (Process 0). cbn. unfold q_process. rewrite Et, E, map_size_empty.
    case_decide; [eauto|lia].
  - assert (q_workers s ≠ ∅) as Hne
        by (apply map_size_non_empty_iff; lia).
    apply map_choose in Hne as (i & [task start] & Hi).
    exists (Settle i 0). cbn. unfold worker_settle. rewrite Hi.
    destruct (timedExec _ _ _ _ _ _ _ _) as [[outcome done] lines]. eauto.
Qed.

Lemma run_complete (s : State) :
  1 ≤ concurrency → ∃ evs s', run s evs = Some s' ∧ idle s'.
Proof.
  intros HK. remember (measure s) as n eqn:Hn.
  revert s Hn. induction n as [n IH] using lt_wf_ind. intros s ->.
  destruct (q_tasks s) as [|task rest] eqn:Et.
  - destruct (size (q_workers s)) as [|k] eqn:E.
    + exists [], s. split; [done|]. split; [done|].
      by apply map_size_empty_iff.
    + destruct (not_idle_step s HK) as (ev & s1 & Hstep).
      { intros [_ Hw]. rewrite Hw, map_size_empty in E. done. }
      destruct (IH _ (step_measure _ _ _ Hstep) s1 eq_refl)
        as (evs & s' & Hrun & Hidle).
      exists (ev :: evs), s'. cbn. by rewrite Hstep.
  - destruct (not_idle_step s HK) as (ev & s1 & Hstep).
    { intros [Ht _]. congruence. }
    destruct (IH _ (step_measure _ _ _ Hstep) s1 eq_refl)
      as (evs & s' & Hrun & Hidle).
    exists (ev :: evs), s'. cbn. by rewrite Hstep.
Qed.

Lemma settled_outcome (items : list TItem) (s : State) (i : nat)
    (o : settled TResult) :
  queue_inv items s → p s !! i = Some (Some o) →
  ∃ it, items !! i = Some it ∧ o = exec it.
Proof.
  intros Hinv Hi.
  assert (i < length items) as Hlt
    by (rewrite <- (inv_length Hinv); by eapply lookup_lt_Some).
  destruct (lookup_lt_is_Some_2 _ _ Hlt) as [it Hit]. exists it. split; [done|].
  destruct (decide (i < started s)) as [Hs|Hs].
  - destruct (q_workers s !! i) as [[task start]|] eqn:Ew.
    + destruct (inv_workers Hinv _ _ _ Ew) as (_ & _ & Hp). congruence.
    + pose proof (inv_settled Hinv _ _ Hs Ew Hit). congruence.
  - pose proof (inv_waiting Hinv i ltac:(lia) Hlt). congruence.
Qed.

(** *** The completion counter and the status lines *)

Lemma process_report (s s' : State) (now : Z) :
  q_process concurrency now s = Some s' →
  numDone s' = numDone s ∧ logged s' = logged s ∧ p s' = p s ∧
  all_p s' = all_p s.
Proof.
  unfold q_process. destruct (q_tasks s); [done|].
  case_decide; [|done]. by intros [= <-].
Qed.

Lemma settle_report (s s' : State) (i : nat) (now start : Z)
    (task : TaskExec TItem) :
  q_workers s !! i = Some (task, start) →
  worker_settle exec messageCallback i now s = Some s' →
  p s' = <[slot task := Some (exec (item task))]> (p s) ∧
  match messageCallback, exec (item task) with
  | Some label, Fulfilled _ =>
      numDone s' = S (numDone s) ∧
      logged s' =
        logged s ++ [status_line (S (numDone s)) (length (p s))
                       (label (item task)) (now - start)]
  | _, _ => numDone s' = numDone s ∧ logged s' = logged s
  end.
Proof.
  intros Hw. unfold worker_settle, timedExec. rewrite Hw.
  destruct messageCallback as [label|]; [destruct (exec (item task)) eqn:E|];
    intros [= <-]; cbn; rewrite ?E; done.
Qed.

Lemma counter_inv_run (items : list TItem) (s : State) (evs : list Event) :
  run (queueExec items) evs = Some s → counter_inv (length items) s.
Proof.
  intros Hrun.
  refine (proj2 (run_invariant
                   (λ s, queue_inv items s ∧ counter_inv (length items) s)
                   _ _ _ _ _ Hrun)).
  - intros s1 ev s2 [Hinv Hc] Hstep. split; [by eapply queue_inv_step|].
    destruct ev as [now|i now]; cbn in Hstep.
    + destruct (process_report _ _ _ Hstep) as (Hn & Hl & Hp & _).
      unfold counter_inv. rewrite Hn, Hl, Hp. exact Hc.
    + pose proof Hstep as Hstep'. unfold worker_settle in Hstep'.
      destruct (q_workers s1 !! i) as [[task start]|] eqn:Ew; [|done].
      clear Hstep'.
      destruct (inv_workers Hinv _ _ _ Ew) as (_ & Htask & Hpi).
      apply task_list_lookup in Htask as [_ Hslot].
      destruct (settle_report _ _ _ _ _ _ Ew Hstep) as [Hp Hrep].
      rewrite Hslot in Hp. destruct Hc as [Hlen Hc]. unfold counter_inv.
      destruct messageCallback as [label|].
      * destruct Hc as [Hcount Hlines].
        rewrite Hp, (fulfilled_count_insert _ _ _ Hpi).
        destruct (exec (item task)) as [r|e]; cbn.
        -- destruct Hrep as [-> ->]. rewrite length_app. cbn.
           split; [lia|]. split; [lia|]. intros k line Hk.
           apply lookup_app_Some in Hk as [Hk|[Hge Hk]]; [by apply Hlines|].
           apply list_lookup_singleton_Some in Hk as [Hk <-].
           exists (item task), (now - start)%Z.
           rewrite (inv_length Hinv). do 2 f_equal. lia.
        -- destruct Hrep as [-> ->]. done.
      * destruct Hrep as [-> ->]. done.
  - split; [apply queue_inv_init|]. rewrite queueExec_unfold.
    unfold counter_inv. cbn. split; [done|].
    destruct messageCallback; [|done]. split; [|done].
    unfold fulfilled_count. clear. induction (length items); cbn; done.
Qed.

(** *** The order in which tasks are started *)

Lemma start_order_fifo (items : list TItem) (s s' : State) (evs : list Event) :
  queue_inv items s → run s evs = Some s' →
  started s ≤ started s' ∧
  start_order s evs = seq (started s) (started s' - started s).
Proof.
  revert s. induction evs as [|ev evs IH]; intros s Hinv; cbn.
  - intros [= <-]. rewrite Nat.sub_diag. done.
  - destruct (step s ev) as [s1|] eqn:Hstep; [|done]. intros Hrun.
    destruct ev as [now|i now]; cbn in Hstep.
    + destruct (queue_inv_process _ _ _ _ Hinv Hstep)
        as (Hinv1 & Hs1 & task & Ht & Hslot).
      destruct (IH _ Hinv1 Hrun) as [Hle ->]. rewrite Ht, Hslot, Hs1.
      split; [lia|].
      replace (started s' - started s) with (S (started s' - S (started s)))
        by lia.
      done.
    + destruct (queue_inv_settle _ _ _ _ _ Hinv Hstep) as (Hinv1 & Hs1 & _).
      destruct (IH _ Hinv1 Hrun) as [Hle ->]. rewrite Hs1.
      split; [lia|done].
Qed.

Lemma run_all_p_settled (s s' : State) (evs : list Event) :
  run s evs = Some s' → is_Some (all_p s) → all_p s' = all_p s.
Proof.
  revert s. induction evs as [|ev evs IH]; intros s; cbn.
  - by intros [= <-].
  - destruct (step s ev) as [s1|] eqn:Hstep; [|done]. intros Hrun Hs.
    assert (all_p s1 = all_p s) as H1.
    { destruct ev as [now|i now]; cbn in Hstep.
      - by destruct (process_report _ _ _ Hstep) as (_ & _ & _ & ?).
      - unfold worker_settle in Hstep.
        destruct (q_workers s !! i) as [[task start]|]; [|done].
        destruct (timedExec _ _ _ _ _ _ _ _) as [[outcome done] lines].
        simplify_eq. cbn. by apply Promise_all_react_settled. }
    rewrite <- H1. apply IH; [done|]. by rewrite H1.
Qed.

Lemma workers_in_flight (items : list TItem) (s : State) (j : nat) :
  queue_inv items s →
  is_Some (q_workers s !! j) ↔ j < started s ∧ p s !! j = Some None.
Proof.
  intros Hinv. split.
  - intros [[task start] Hw].
    by destruct (inv_workers Hinv _ _ _ Hw) as (? & _ & ?).
  - intros [Hj Hp]. destruct (q_workers s !! j) eqn:Ew; [eauto|].
    destruct (queue_inv_started items s Hinv) as [Hle _].
    destruct (lookup_lt_is_Some_2 items j ltac:(lia)) as [it Hit].
    pose proof (inv_settled Hinv _ _ Hj Ew Hit). congruence.
Qed.

(** ** Claims about [queueExec] *)

(** C2.  With a concurrency of at least one, [queueExec] over [N] items
    comes to an end under every schedule; [p] has [N] promises and the one
    of index [i] settles with the outcome of [exec] on the item of index
    [i]; whenever the returned promise is fulfilled, its array has the
    result of the [i]-th item at index [i], and it is fulfilled with that
    array at the end of every run in which no operation rejects, whatever
    the order of the settlements. *)
Theorem queueExec_results_in_input_order (items : list TItem) :
  1 ≤ concurrency →
  (∃ evs s, run (queueExec items) evs = Some s ∧ idle s) ∧
  (∀ evs s, run (queueExec items) evs = Some s →
     length evs ≤ 2 * length items ∧
     length (p s) = length items ∧
     (∀ rs, all_p s = Some (Fulfilled rs) →
        length rs = length items ∧
        Forall2 (λ it r, exec it = Fulfilled r) items rs) ∧
     (idle s →
        (∀ i it, items !! i = Some it → p s !! i = Some (Some (exec it))) ∧
        (∀ rs, Forall2 (λ it r, exec it = Fulfilled r) items rs →
           all_p s = Some (Fulfilled rs)))).
Proof.
  intros HK. split; [by apply run_complete|].
  intros evs s Hrun.
  pose proof (queue_inv_run _ _ _ Hrun) as Hinv.
  split; [|split; [apply (inv_length Hinv)|split]].
  - apply run_measure in Hrun. rewrite queueExec_unfold in Hrun.
    unfold measure, task_list in Hrun. cbn in Hrun.
    rewrite length_imap, map_size_empty in Hrun. lia.
  - intros rs Hrs. pose proof (all_inv_run _ _ _ Hrun) as Hall.
    rewrite Hrs in Hall. cbn in Hall.
    assert (length items = length rs) as Hlen.
    { rewrite <- (inv_length Hinv). by eapply length_mapM. }
    split; [done|].
    apply Forall2_same_length_lookup_2; [done|]. intros i it r Hit Hr.
    pose proof (all_fulfilled_lookup _ _ i Hall) as Hp. rewrite Hr in Hp.
    cbn in Hp. destruct (settled_outcome _ _ _ _ Hinv Hp) as (it' & Hit' & ->).
    congruence.
  - intros Hidle. split; [by apply idle_settled|].
    intros rs Hrs. by eapply idle_all_fulfilled.
Qed.

(** C4.  When [exec] rejects on the item of index [i]: every run can still
    be carried to its end, where each promise of [p] holds the outcome of
    its own item; and the settlement of [i], when no rejection came before,
    rejects the returned promise with the reason of [i] at that very step,
    touches no other promise, leaves the waiting tasks and the other
    running workers as they are, and nothing that follows changes the
    returned promise. *)
Theorem queueExec_failure_isolation (items : list TItem) (i : nat)
    (it : TItem) (e : exn) :
  1 ≤ concurrency → items !! i = Some it → exec it = Rejected e →
  (∀ evs s, run (queueExec items) evs = Some s →
     (∃ evs' s', run s evs' = Some s' ∧ idle s') ∧
     (idle s →
        ∀ j it', items !! j = Some it' → p s !! j = Some (Some (exec it')))) ∧
  (∀ evs s now s',
     run (queueExec items) evs = Some s →
     (∀ j e', p s !! j ≠ Some (Some (Rejected e'))) →
     step s (Settle i now) = Some s' →
     all_p s = None ∧
     all_p s' = Some (Rejected e) ∧
     p s' = <[i := Some (Rejected e)]> (p s) ∧
     q_tasks s' = q_tasks s ∧
     q_workers s' = delete i (q_workers s) ∧
     ∀ evs2 s2, run s' evs2 = Some s2 → all_p s2 = Some (Rejected e)).
Proof.
  intros HK Hit He. split.
  - intros evs s Hrun. split; [by apply run_complete|].
    intros Hidle. apply idle_settled; [|done]. by eapply queue_inv_run.
  - intros evs s now s' Hrun Hno Hstep.
    pose proof (queue_inv_run _ _ _ Hrun) as Hinv.
    pose proof (all_inv_run _ _ _ Hrun) as Hall.
    destruct (queue_inv_settle _ _ _ _ _ Hinv Hstep)
      as (_ & _ & Ht & Hw & it' & Hit' & Hpi & Hp' & Hall').
    assert (it' = it) as -> by congruence. rewrite He in *.
    assert (all_p s = None) as Hnone.
    { unfold all_inv in Hall. destruct (all_p s) as [[rs|e']|]; [| |done].
      - rewrite (all_fulfilled_pending _ _ Hpi) in Hall. done.
      - destruct Hall as [j Hj]. by destruct (Hno j e'). }
    rewrite Hnone in Hall'. cbn in Hall'.
    do 5 (split; [done|]). intros evs2 s2 Hrun2.
    rewrite <- Hall'. apply (run_all_p_settled _ _ _ Hrun2).
    rewrite Hall'. eauto.
Qed.

(** C9.  In every state that a run reaches, at most [concurrency] workers
    run, and these are the operations begun and not yet settled; the tasks
    were handed to the worker in the order of their submission; a task is
    handed over exactly when one waits and fewer than [concurrency] workers
    run, and it is then the oldest one waiting; with a concurrency of at
    least one the queue never stalls before it is idle. *)
Theorem queue_concurrency_bound (items : list TItem) (evs : list Event)
    (s : State) :
  run (queueExec items) evs = Some s →
  size (q_workers s) ≤ concurrency ∧
  (∀ j, is_Some (q_workers s !! j) ↔ j < started s ∧ p s !! j = Some None) ∧
  start_order (queueExec items) evs = seq 0 (started s) ∧
  (∀ now, is_Some (q_process concurrency now s) ↔
          q_tasks s ≠ [] ∧ size (q_workers s) < concurrency) ∧
  (∀ now s', q_process concurrency now s = Some s' →
     ∃ task, q_tasks s = task :: q_tasks s' ∧ slot task = started s ∧
             q_workers s' = <[started s := (task, now)]> (q_workers s)) ∧
  (1 ≤ concurrency → ¬ idle s → ∃ ev s', step s ev = Some s').
Proof.
  intros Hrun. pose proof (queue_inv_run _ _ _ Hrun) as Hinv.
  split; [apply (inv_bound Hinv)|].
  split; [intros j; by apply (workers_in_flight items)|].
  split.
  { destruct (start_order_fifo _ _ _ _ (queue_inv_init items) Hrun) as [_ ->].
    assert (started (queueExec items : State) = 0) as ->.
    { rewrite queueExec_unfold. unfold started, task_list. cbn.
      rewrite length_replicate, length_imap. lia. }
    by rewrite Nat.sub_0_r. }
  split.
  { intros now. unfold q_process. destruct (q_tasks s) as [|task rest].
    - split; [by intros [? ?]|by intros [? _]].
    - case_decide.
      + split; [done|eauto].
      + split; [by intros [? ?]|intros [_ ?]; lia]. }
  split.
  { intros now s' Hp.
    destruct (queue_inv_process _ _ _ _ Hinv Hp) as (_ & _ & task & Ht & Hslot).
    exists task. do 2 (split; [done|]).
    unfold q_process in Hp. rewrite Ht in Hp. case_decide; [|done].
    injection Hp as <-. cbn. by rewrite Hslot. }
  intros HK Hn. by apply not_idle_step.
Qed.

Lemma fulfilled_count_le {A} (ps : list (promise A)) :
  fulfilled_count ps ≤ length ps.
Proof.
  unfold fulfilled_count. induction ps as [|pr ps IH]; cbn; [done|].
  destruct (fulfilled_value pr); cbn; lia.
Qed.

Lemma fulfilled_count_all {A} (ps : list (promise A)) :
  (∀ pr, pr ∈ ps → is_Some (fulfilled_value pr)) →
  fulfilled_count ps = length ps.
Proof.
  unfold fulfilled_count. induction ps as [|pr ps IH]; intros H; cbn; [done|].
  destruct (H pr ltac:(left)) as [a ->]. cbn.
  rewrite IH; [done|]. intros pr' Hin. apply H. by right.
Qed.

(** The counter of [timedExec], when a message callback is given. *)
Lemma queue_counter (items : list TItem) (label : TItem → string)
    (evs : list Event) (s : State) :
  messageCallback = Some label →
  run (queueExec items) evs = Some s →
  numDone s = fulfilled_count (p s) ∧
  numDone s ≤ length items ∧
  length (logged s) = numDone s ∧
  (∀ k line, logged s !! k = Some line →
     ∃ it ms, line = status_line (S k) (length items) (label it) ms) ∧
  (∀ now s', step s (Process now) = Some s' → numDone s' = numDone s) ∧
  (∀ i now s', step s (Settle i now) = Some s' →
     ∃ it, items !! i = Some it ∧
       match exec it with
       | Fulfilled _ => numDone s' = S (numDone s)
       | Rejected _ => numDone s' = numDone s
       end) ∧
  (idle s → (∀ it, it ∈ items → is_fulfilled (exec it) = true) →
   numDone s = length items).
Proof.
  intros Hcb Hrun. pose proof (queue_inv_run _ _ _ Hrun) as Hinv.
  destruct (counter_inv_run _ _ _ Hrun) as [Hlen Hc]. rewrite Hcb in Hc.
  destruct Hc as [Hcount Hlines].
  split; [done|]. split.
  { rewrite Hcount, <- (inv_length Hinv). apply fulfilled_count_le. }
  do 2 (split; [done|]). split.
  { intros now s' Hs. by destruct (process_report _ _ _ Hs). }
  split.
  { intros i now s' Hs. cbn in Hs. pose proof Hs as Hs'.
    unfold worker_settle in Hs'.
    destruct (q_workers s !! i) as [[task start]|] eqn:Ew; [|done]. clear Hs'.
    destruct (inv_workers Hinv _ _ _ Ew) as (_ & Htask & _).
    apply task_list_lookup in Htask as [Hit _].
    exists (item task). split; [done|].
    destruct (settle_report _ _ _ _ _ _ Ew Hs) as [_ Hrep].
    rewrite Hcb in Hrep. destruct (exec (item task)); by destruct Hrep. }
  intros Hidle Hall. rewrite Hcount, <- (inv_length Hinv).
  apply fulfilled_count_all. intros pr Hpr.
  apply list_elem_of_lookup in Hpr as [i Hi].
  assert (i < length items) as Hlt
    by (rewrite <- (inv_length Hinv); by eapply lookup_lt_Some).
  destruct (lookup_lt_is_Some_2 _ _ Hlt) as [it Hit].
  rewrite (idle_settled _ _ Hinv Hidle _ _ Hit) in Hi. simplify_eq.
  specialize (Hall it (list_elem_of_lookup_2 _ _ _ Hit)).
  destruct (exec it); [eauto|done].
Qed.


End QueueFacts.

(** ** Runs of [Packages.clean] *)

Section CleanFacts.

Variable chalkColor : nat → string → string.
Variable execWithErrorAsync : string → Package → ExecAsyncResult.
Variable status : bool.

Local Abbreviation settle :=
  (clean_settle chalkColor execWithErrorAsync status).
Local Abbreviation runs := (clean_run chalkColor execWithErrorAsync status).
Local Abbreviation clean_results := (clean_results execWithErrorAsync).
Local Abbreviation clean_inv := (clean_inv execWithErrorAsync status).

Lemma clean_targets_cons (pkg : Package) (pkgs : list Package) :
  clean_targets (pkg :: pkgs) =
  match getScript pkg "clean" with
  | Return (Some script) =>
      if truthy_string script
      then (pkg, script) :: clean_targets pkgs
      else clean_targets pkgs
  | _ => clean_targets pkgs
  end.
Proof.
  unfold clean_targets. cbn.
  destruct (getScript pkg "clean") as [[script|]|]; try done.
  by destruct (truthy_string script).
Qed.

Lemma elem_of_clean_targets (packages : list Package) (pkg : Package)
    (script : string) :
  (pkg, script) ∈ clean_targets packages ↔
  pkg ∈ packages ∧ getScript pkg "clean" = Return (Some script) ∧
  script ≠ EmptyString.
Proof.
  unfold clean_targets. rewrite list_elem_of_omap. split.
  - intros (pkg' & Hin & H).
    destruct (getScript pkg' "clean") as [[script'|]|] eqn:E; try done.
    destruct script'; cbn in H; [done|]. by simplify_eq.
  - intros (Hin & Hs & Hne). exists pkg. split; [done|]. rewrite Hs.
    by destruct script.
Qed.

(** The loop of [clean] over packages that all have a [scripts] object. *)
Lemma clean_loop_spec (clock : nat → Z) (pkgs : list Package) (k : nat)
    (s : CleanState) :
  (∀ pkg, pkg ∈ pkgs → is_Some (scripts (packageJson pkg))) →
  ∃ s', clean_loop clock k s pkgs = Return s' ∧
    c_numDone s' = c_numDone s ∧ c_logged s' = c_logged s ∧
    c_all s' = c_all s ∧
    cleanP s' = cleanP s ++ replicate (length (clean_targets pkgs)) None ∧
    (∀ j target, clean_targets pkgs !! j = Some target →
       ∃ start, c_running s' !! (length (cleanP s) + j) = Some (target, start)) ∧
    (∀ i, i < length (cleanP s) ∨ length (cleanP s') ≤ i →
       c_running s' !! i = c_running s !! i).
Proof.
  revert k s. induction pkgs as [|pkg pkgs IH]; intros k s Hall.
  - exists s. cbn. rewrite app_nil_r. repeat split; done.
  - assert (∀ pkg0, pkg0 ∈ pkgs → is_Some (scripts (packageJson pkg0))) as Hall'
      by (intros; apply Hall; by right).
    destruct (Hall pkg ltac:(left)) as [table Htable].
    rewrite clean_targets_cons. cbn [clean_loop]. unfold clean_visit.
    unfold getScript. rewrite Htable.
    destruct (table !! "clean") as [script|] eqn:Es;
      [destruct (truthy_string script) eqn:Et|].
    + destruct (IH (S k) (clean_push (clock k) pkg script s) Hall')
        as (s' & -> & Hn & Hl & Ha & Hp & Hrun & Hout).
      exists s'. cbn in *. rewrite length_app in *. cbn in *.
      do 4 (split; [done|]). split; [by rewrite Hp, <- app_assoc|]. split.
      * intros [|j] target Hj; cbn in Hj.
        -- simplify_eq. exists (clock k). rewrite Hout by lia.
           rewrite Nat.add_0_r. apply lookup_insert_eq.
        -- destruct (Hrun j target Hj) as [start Hs]. exists start.
           rewrite <- Hs. f_equal. lia.
      * intros i Hi. rewrite Hp, !length_app in Hi. cbn in Hi.
        rewrite Hout.
        -- apply lookup_insert_ne. lia.
        -- rewrite Hp, !length_app. cbn. lia.
    + destruct (IH (S k) s Hall') as (s' & -> & H). by exists s'.
    + destruct (IH (S k) s Hall') as (s' & -> & H). by exists s'.
Qed.

(** [clean] throws when it meets a package without [scripts]. *)
Lemma clean_loop_faults (clock : nat → Z) (pkgs : list Package) (k : nat)
    (s : CleanState) :
  (∃ pkg, pkg ∈ pkgs ∧ scripts (packageJson pkg) = None) →
  ∃ message, clean_loop clock k s pkgs = Throw (TypeError message).
Proof.
  revert k s. induction pkgs as [|pkg pkgs IH]; intros k s (bad & Hin & Hbad).
  - by apply elem_of_nil in Hin.
  - cbn [clean_loop]. unfold clean_visit, getScript.
    destruct (scripts (packageJson pkg)) as [table|] eqn:Et; [|eauto].
    assert (∃ pkg0, pkg0 ∈ pkgs ∧ scripts (packageJson pkg0) = None) as Hrest.
    { apply elem_of_cons in Hin as [->|Hin]; [congruence|eauto]. }
    destruct (table !! "clean") as [script|];
      [destruct (truthy_string script)|]; apply IH; done.
Qed.

Lemma fulfilled_count_replicate {A} (n : nat) :
  fulfilled_count (replicate n (None : promise A)) = 0.
Proof. unfold fulfilled_count. induction n; cbn; done. Qed.

Lemma clean_inv_init (packages : list Package) (clock : nat → Z) :
  (∀ pkg, pkg ∈ packages → is_Some (scripts (packageJson pkg))) →
  ∃ s0, clean packages clock = Return s0 ∧
        clean_inv (clean_targets packages) s0 ∧
        cleanP s0 = replicate (length (clean_targets packages)) None ∧
        c_numDone s0 = 0 ∧ c_logged s0 = [] ∧
        ∀ i, is_Some (c_running s0 !! i) ↔ i < length (clean_targets packages).
Proof.
  intros Hall. unfold clean.
  destruct (clean_loop_spec clock packages 0 c_fresh Hall)
    as (s1 & -> & Hn & Hl & _ & Hp & Hrun & Hout).
  cbn in *. eexists. split; [done|]. cbn.
  assert (∀ i, is_Some (c_running s1 !! i) ↔
               i < length (clean_targets packages)) as Hdom.
  { intros i. split.
    - intros Hi. destruct (decide (i < length (clean_targets packages)));
        [done|].
      rewrite Hout, lookup_empty in Hi; [by destruct Hi|].
      right. rewrite Hp, length_replicate. lia.
    - intros Hi. apply lookup_lt_is_Some_2 in Hi as [target Ht].
      destruct (Hrun _ _ Ht) as [start Hs]. eauto. }
  split; [|by rewrite Hp, Hn, Hl].
  split; cbn [cleanP c_numDone c_logged c_running c_all].
  - by rewrite Hp, length_replicate.
  - intros i target start Hi.
    assert (i < length (clean_targets packages)) as Hlt by (apply Hdom; eauto).
    split; [|rewrite Hp; by apply lookup_replicate_2].
    destruct (lookup_lt_is_Some_2 _ _ Hlt) as [target' Ht].
    destruct (Hrun _ _ Ht) as [start' Hs]. congruence.
  - intros i target Ht Hnone.
    destruct (Hrun _ _ Ht) as [start Hs]. congruence.
  - done.
  - rewrite Hn, Hl, Hp, fulfilled_count_replicate.
    destruct status; [|done]. repeat split; try done.
Qed.

Lemma clean_inv_settle (targets : list (Package * string))
    (s s' : CleanState) (i : nat) (now : Z) :
  clean_inv targets s → settle i now s = Some s' →
  clean_inv targets s' ∧
  ∃ pkg script start,
    c_running s !! i = Some (pkg, script, start) ∧
    c_running s' = delete i (c_running s) ∧
    cleanP s' = <[i := Some (Fulfilled (execWithErrorAsync script pkg))]> (cleanP s) ∧
    fulfilled_count (cleanP s') = S (fulfilled_count (cleanP s)) ∧
    c_numDone s' = (if status then S (c_numDone s) else c_numDone s) ∧
    c_logged s' =
      (if status
       then c_logged s ++
            [status_line (S (c_numDone s)) (length targets)
               (nameColored chalkColor pkg +:+ ": " +:+ script) (now - start)]
       else c_logged s).
Proof.
  intros [Hlen Hrun Hset Hall Hc] Hs. unfold clean_settle in Hs.
  destruct (c_running s !! i) as [[[pkg script] start]|] eqn:Ew; [|done].
  destruct (Hrun _ _ _ Ew) as [Ht Hpi]. simplify_eq.
  pose proof (fulfilled_count_insert (cleanP s) i
                (Fulfilled (execWithErrorAsync script pkg)) Hpi) as Hcount.
  cbn in Hcount.
  split; [|exists pkg, script, start; cbn; by rewrite Hlen].
  split; cbn [cleanP c_numDone c_logged c_running c_all].
  - by rewrite length_insert.
  - intros j target start'. rewrite lookup_delete. case_decide; [done|].
    intros Hj. destruct (Hrun _ _ _ Hj). by rewrite list_lookup_insert_ne.
  - intros j target Hj. rewrite lookup_delete. case_decide as Hij.
    + intros _. subst j. simplify_eq.
      apply list_lookup_insert_eq. by eapply lookup_lt_Some.
    + intros Hn. rewrite list_lookup_insert_ne by done. by apply Hset.
  - rewrite Hall. unfold Promise_all at 1.
    by rewrite (all_fulfilled_pending _ _ Hpi).
  - destruct status; [|done]. destruct Hc as (Hn & Hl & Hlines).
    rewrite Hcount, length_app. cbn. split; [lia|]. split; [lia|].
    intros k line Hk.
    apply lookup_app_Some in Hk as [Hk|[Hge Hk]]; [by apply Hlines|].
    apply list_lookup_singleton_Some in Hk as [Hk <-].
    eexists _, _. rewrite Hlen. do 2 f_equal. lia.
Qed.

Lemma clean_inv_run (targets : list (Package * string)) (s s' : CleanState)
    (evs : list (nat * Z)) :
  clean_inv targets s → runs s evs = Some s' →
  clean_inv targets s' ∧
  fulfilled_count (cleanP s') = length evs + fulfilled_count (cleanP s).
Proof.
  revert s. induction evs as [|[i now] evs IH]; intros s Hinv; cbn.
  - intros [= <-]. done.
  - destruct (settle i now s) as [s1|] eqn:Hs; [|done]. intros Hrun.
    destruct (clean_inv_settle _ _ _ _ _ Hinv Hs)
      as (Hinv1 & pkg & script & start & _ & _ & _ & Hcount & _).
    destruct (IH _ Hinv1 Hrun) as [Hinv' Hc']. split; [done|].
    rewrite Hc', Hcount. lia.
Qed.

Lemma clean_idle (packages : list Package) (s : CleanState) :
  clean_inv (clean_targets packages) s → c_running s = ∅ →
  c_all s = Some (Fulfilled (clean_results packages)) ∧
  fulfilled_count (cleanP s) = length (clean_targets packages).
Proof.
  intros [Hlen Hrun Hset Hall Hc] Hidle.
  assert (all_fulfilled (cleanP s) = Some (clean_results packages)) as Hful.
  { apply all_fulfilled_intro.
    - unfold clean_results. by rewrite length_fmap.
    - intros i r. unfold clean_results. rewrite list_lookup_fmap.
      destruct (clean_targets packages !! i) as [target|] eqn:Et; [|done].
      intros [= <-]. apply Hset; [done|]. by rewrite Hidle, lookup_empty. }
  split; [by rewrite Hall; unfold Promise_all; rewrite Hful|].
  rewrite <- Hlen. apply fulfilled_count_all. intros pr Hpr.
  apply list_elem_of_lookup in Hpr as [i Hi].
  rewrite (all_fulfilled_lookup _ _ i Hful) in Hi.
  destruct (clean_results packages !! i); by simplify_eq/=.
Qed.

Lemma clean_run_complete (s : CleanState) :
  ∃ evs s', runs s evs = Some s' ∧ c_running s' = ∅.
Proof.
  remember (size (c_running s)) as n eqn:Hn. revert s Hn.
  induction n as [|n IH]; intros s Hn.
  - exists [], s. split; [done|]. by apply map_size_empty_iff.
  - assert (c_running s ≠ ∅) as Hne by (apply map_size_non_empty_iff; lia).
    apply map_choose in Hne as (i & [[pkg script] start] & Hi).
    destruct (settle i 0 s) as [s1|] eqn:Hs.
    + assert (size (c_running s1) = n) as Hn1.
      { unfold clean_settle in Hs. rewrite Hi in Hs.
        injection Hs as <-. cbn. rewrite map_size_delete, Hi. cbn. lia. }
      destruct (IH s1 (eq_sym Hn1)) as (evs & s' & Hrun & Hidle).
      exists ((i, 0%Z) :: evs), s'. cbn. by rewrite Hs.
    + unfold clean_settle in Hs. by rewrite Hi in Hs.
Qed.

(** C3, as the code has it.  Over packages that all have a [scripts]
    object, [clean] starts one operation for each package whose ["clean"]
    script is a non-empty string, in the order of the packages, and for no
    other; every run settles at most that many operations and can be
    carried to its end, where exactly that many have been settled and the
    verdict is the reduction of the results of these operations alone. *)
Theorem clean_runs_nonempty_scripts (packages : list Package)
    (clock : nat → Z) :
  (∀ pkg, pkg ∈ packages → is_Some (scripts (packageJson pkg))) →
  (∀ pkg script,
     (pkg, script) ∈ clean_targets packages ↔
     pkg ∈ packages ∧ getScript pkg "clean" = Return (Some script) ∧
     script ≠ EmptyString) ∧
  ∃ s0, clean packages clock = Return s0 ∧
    length (cleanP s0) = length (clean_targets packages) ∧
    (∀ i, is_Some (c_running s0 !! i) ↔ i < length (clean_targets packages)) ∧
    (∀ i target start,
       c_running s0 !! i = Some (target, start) →
       clean_targets packages !! i = Some target) ∧
    (∃ evs s, runs s0 evs = Some s ∧ c_running s = ∅) ∧
    (∀ evs s, runs s0 evs = Some s →
       length evs ≤ length (clean_targets packages) ∧
       (c_running s = ∅ →
          length evs = length (clean_targets packages) ∧
          clean_verdict s =
            Some (Fulfilled (reduceToSuccess (clean_results packages))))).
Proof.
  intros Hall. split; [apply elem_of_clean_targets|].
  destruct (clean_inv_init packages clock Hall)
    as (s0 & Hclean & Hinv & Hp & _ & _ & Hdom).
  exists s0. split; [done|]. split; [apply (ci_length Hinv)|].
  split; [done|]. split.
  { intros i target start Hi. by destruct (ci_running Hinv _ _ _ Hi). }
  split; [apply clean_run_complete|].
  intros evs s Hrun. destruct (clean_inv_run _ _ _ _ Hinv Hrun) as [Hinv' Hc].
  rewrite Hp, fulfilled_count_replicate, Nat.add_0_r in Hc. split.
  - rewrite <- Hc, <- (ci_length Hinv'). apply fulfilled_count_le.
  - intros Hidle. destruct (clean_idle _ _ Hinv' Hidle) as [Hall' Hn].
    split; [lia|]. unfold clean_verdict. by rewrite Hall'.
Qed.


End CleanFacts.

(** ** The sequential loop of [forEachAsync] *)

Section ForEach.

Context {TResult : Type}.
Variable chalkColor : nat → string → string.
Variable exec : Package → settled TResult.

Lemma one_by_one_S (i n : nat) :
  one_by_one i (S n) = OpBegin i :: OpEnd i :: one_by_one (S i) n.
Proof. done. Qed.

Lemma one_by_one_snoc (n : nat) :
  one_by_one 0 (S n) = one_by_one 0 n ++ [OpBegin n; OpEnd n].
Proof.
  unfold one_by_one. by rewrite seq_S, flat_map_app.
Qed.

Lemma in_flight_app (n : nat) (t1 t2 : list SeqEvent) :
  in_flight n (t1 ++ t2) = in_flight n t1 ++ in_flight (in_flight_after n t1) t2.
Proof.
  revert n. induction t1 as [|[i|i] t1 IH]; intros n; cbn; [done|..];
    by rewrite IH.
Qed.

Lemma in_flight_after_app (n : nat) (t1 t2 : list SeqEvent) :
  in_flight_after n (t1 ++ t2) = in_flight_after (in_flight_after n t1) t2.
Proof. unfold in_flight_after. by rewrite foldl_app. Qed.

Lemma in_flight_one_by_one (n : nat) :
  in_flight_after 0 (one_by_one 0 n) = 0 ∧
  ∀ d, d ∈ in_flight 0 (one_by_one 0 n) → d ≤ 1.
Proof.
  induction n as [|n [IH1 IH2]].
  - split; [done|]. intros d H. by apply elem_of_nil in H.
  - rewrite one_by_one_snoc, in_flight_after_app, in_flight_app, IH1.
    split; [done|]. intros d. rewrite elem_of_app. cbn.
    rewrite !elem_of_cons. intros [H|[->|[->|H]]]; [by apply IH2|lia|lia|].
    by apply elem_of_nil in H.
Qed.

Lemma in_flight_awaiting (n d : nat) :
  d ∈ in_flight 0 (one_by_one 0 n ++ [OpBegin n]) → d ≤ 1.
Proof.
  destruct (in_flight_one_by_one n) as [H1 H2].
  rewrite in_flight_app, H1, elem_of_app. cbn. rewrite elem_of_cons.
  intros [H|[->|H]]; [by apply H2|lia|]. by apply elem_of_nil in H.
Qed.

Lemma seq_inv_enter (packages : list Package) :
  seq_inv packages exec 0 (seq_enter packages 0 [] []).
Proof.
  exists 0. unfold seq_enter. rewrite take_0.
  destruct (packages !! 0) as [pkg|] eqn:E; cbn.
  - split; [constructor|]. done.
  - split; [constructor|]. apply lookup_ge_None in E.
    repeat split; try done. lia.
Qed.

Lemma seq_inv_settle (packages : list Package) (n : nat)
    (s s' : SeqState TResult) :
  seq_inv packages exec n s → seq_settle packages exec s = Some s' →
  seq_inv packages exec (S n) s'.
Proof.
  intros (k & Hres & Hshape). unfold seq_settle.
  destruct (awaited s) as [[i pkg]|]; [|done].
  destruct (returned s); [done|].
  destruct Hshape as (<- & -> & Hpkg & Htrace).
  destruct (exec pkg) as [r|e] eqn:E; intros [= <-].
  - assert (Forall2 (λ pkg r, exec pkg = Fulfilled r)
              (take (S n) packages) (seq_results s ++ [r])) as Hres'.
    { rewrite (take_S_r _ _ _ Hpkg). apply Forall2_app; [done|].
      by repeat constructor. }
    exists (S n). unfold seq_enter.
    destruct (packages !! S n) as [pkg'|] eqn:E'; cbn [awaited returned seq_results seq_trace].
    + split; [done|]. do 3 (split; [done|]).
      rewrite Htrace, one_by_one_snoc, <- !app_assoc. done.
    + split; [done|]. apply lookup_ge_None in E'.
      apply lookup_lt_Some in Hpkg. split; [done|]. split; [lia|].
      split; [done|]. rewrite Htrace, one_by_one_snoc, <- !app_assoc. done.
  - exists n. cbn [awaited returned seq_results seq_trace]. split; [done|]. split; [done|]. split; [|eauto].
    rewrite Htrace, one_by_one_snoc, <- !app_assoc. done.
Qed.

Lemma seq_inv_run (packages : list Package) (n : nat) (s : SeqState TResult) :
  seq_run packages exec (seq_enter packages 0 [] []) n = Some s →
  seq_inv packages exec n s.
Proof.
  revert s. induction n as [|n IH]; intros s; cbn.
  - intros [= <-]. apply seq_inv_enter.
  - destruct (seq_run packages exec _ n) as [s1|]; [|done].
    apply seq_inv_settle. by apply IH.
Qed.

Lemma seq_run_all (packages : list Package) (n : nat) :
  (∀ pkg, pkg ∈ packages → is_fulfilled (exec pkg) = true) →
  n ≤ length packages →
  is_Some (seq_run packages exec (seq_enter packages 0 [] []) n).
Proof.
  intros Hall. induction n as [|n IH]; intros Hn; cbn; [eauto|].
  destruct IH as [s Hs]; [lia|]. rewrite Hs.
  destruct (seq_inv_run _ _ _ Hs) as (k & _ & Hshape).
  unfold seq_settle.
  destruct (awaited s) as [[i pkg]|].
  - destruct (exec pkg); eauto.
  - destruct (returned s) as [[all|e]|]; [| |done].
    + destruct Hshape as (-> & -> & _). lia.
    + destruct Hshape as (_ & _ & pkg & Hpkg & He).
      specialize (Hall pkg (list_elem_of_lookup_2 _ _ _ Hpkg)).
      rewrite He in Hall. done.
Qed.

(** C7.  With [parallel = false], [forEachAsync] calls [exec] on the first
    package and suspends.  After any number of settlements the results of
    the first [k] packages are in, in the order of the collection, and
    either the operation of the package of index [k] is the only one in
    flight, begun after the one before it had ended, or the loop is over:
    it has returned the results of all the packages, or the operation of
    the package of index [k] has rejected.  At no instant are two
    operations in flight.  When every operation returns, whatever its
    result holds, the loop runs all the packages and returns their results
    in order. *)
Theorem forEachAsync_sequential (packages : list Package)
    (message : option string) :
  ∃ s0,
    forEachAsync chalkColor packages exec false message = InSequence s0 ∧
    (∀ n s, seq_run packages exec s0 n = Some s →
       n ≤ length packages ∧
       (∀ d, d ∈ in_flight 0 (seq_trace s) → d ≤ 1) ∧
       ∃ k, k ≤ length packages ∧
         Forall2 (λ pkg r, exec pkg = Fulfilled r)
                 (take k packages) (seq_results s) ∧
         match awaited s, returned s with
         | Some (i, pkg), None =>
             n = k ∧ i = k ∧ packages !! k = Some pkg ∧
             seq_trace s = one_by_one 0 k ++ [OpBegin k]
         | None, Some (Fulfilled all) =>
             n = k ∧ k = length packages ∧ all = seq_results s ∧
             seq_trace s = one_by_one 0 k
         | None, Some (Rejected e) =>
             n = S k ∧ seq_trace s = one_by_one 0 (S k) ∧
             ∃ pkg, packages !! k = Some pkg ∧ exec pkg = Rejected e
         | _, _ => False
         end) ∧
    ((∀ pkg, pkg ∈ packages → is_fulfilled (exec pkg) = true) →
     ∃ s all,
       seq_run packages exec s0 (length packages) = Some s ∧
       returned s = Some (Fulfilled all) ∧
       Forall2 (λ pkg r, exec pkg = Fulfilled r) packages all ∧
       seq_trace s = one_by_one 0 (length packages)).
Proof.
  exists (seq_enter packages 0 [] []). split; [done|]. split.
  - intros n s Hrun. destruct (seq_inv_run _ _ _ Hrun) as (k & Hres & Hshape).
    assert (k ≤ length packages ∧ n ≤ length packages ∧
            ∀ d, d ∈ in_flight 0 (seq_trace s) → d ≤ 1) as (Hk & Hn & Hfl).
    { destruct (awaited s) as [[i pkg]|], (returned s) as [[all|e]|];
        try done.
      - destruct Hshape as (-> & -> & Hpkg & ->).
        apply lookup_lt_Some in Hpkg.
        split; [lia|]. split; [lia|]. intros d. apply in_flight_awaiting.
      - destruct Hshape as (-> & -> & _ & ->).
        split; [lia|]. split; [lia|]. apply in_flight_one_by_one.
      - destruct Hshape as (-> & -> & pkg & Hpkg & _).
        apply lookup_lt_Some in Hpkg.
        split; [lia|]. split; [lia|]. apply in_flight_one_by_one. }
    do 2 (split; [done|]). exists k. done.
  - intros Hall.
    destruct (seq_run_all packages (length packages) Hall ltac:(lia)) as [s Hs].
    destruct (seq_inv_run _ _ _ Hs) as (k & Hres & Hshape).
    destruct (awaited s) as [[i pkg]|], (returned s) as [[all|e]|] eqn:Hret;
      try done.
    + destruct Hshape as (<- & _ & Hpkg & _).
      apply lookup_lt_Some in Hpkg. lia.
    + destruct Hshape as (<- & _ & -> & Htrace).
      exists s, (seq_results s). rewrite firstn_all in Hres. done.
    + destruct Hshape as (_ & _ & pkg & Hpkg & He).
      specialize (Hall pkg (list_elem_of_lookup_2 _ _ _ Hpkg)).
      rewrite He in Hall. done.
Qed.

End ForEach.

(** ** The completion counter *)


(** * Instances on the sample inputs *)

(** One failed result among two: the verdict is [false]. *)
Lemma reduceToSuccess_spec_witness :
  reduceToSuccess
    [Sample.execWithErrorAsync "rimraf dist" Sample.bare;
     Sample.execWithErrorAsync "exit 1" Sample.bare] = false.
Proof.
  apply (proj1 (reduceToSuccess_spec _)).
  exists (Sample.execWithErrorAsync "exit 1" Sample.bare).
  split; [|reflexivity]. right. left.
Defined.

(** Three items on two lanes settling out of order: the array is in the
    order of the items. *)
Lemma queueExec_results_in_input_order_witness :
  1 ≤ 2 ∧
  all_p <$> run 2 Sample.tenfold None (queueExec [1; 2; 3]) Sample.out_of_order
  = Some (Some (Fulfilled [10; 20; 30])).
Proof.
  split; [lia|].
  destruct (queueExec_results_in_input_order 2 Sample.tenfold None [1; 2; 3]
              ltac:(lia)) as [_ H].
  destruct (run 2 Sample.tenfold None (queueExec [1; 2; 3]) Sample.out_of_order)
    as [s|] eqn:E; [|vm_compute in E; discriminate].
  destruct (H _ _ E) as (_ & _ & _ & Hidle). cbn. f_equal.
  apply Hidle.
  - vm_compute in E. injection E as <-. split; reflexivity.
  - repeat constructor.
Defined.

(** Against C3 as stated: a package that declares an empty ["clean"] script
    has no operation started, and a package without a [scripts] field is not
    skipped: [clean] throws. *)
Lemma clean_skips_blank_and_faults_on_bare :
  getScript Sample.blank "clean" = Return (Some EmptyString) ∧
  clean [Sample.blank] Sample.clock
  = Return {| c_numDone := 0; c_logged := []; c_running := ∅; cleanP := [];
              c_all := Some (Fulfilled []) |} ∧
  clean [Sample.bare] Sample.clock
  = Throw (TypeError "Cannot read properties of undefined").
Proof. repeat split. Qed.


(** Every sample package has a [scripts] object. *)
Lemma all_have_scripts :
  ∀ pkg, pkg ∈ Sample.five → is_Some (scripts (packageJson pkg)).
Proof.
  apply Forall_forall. unfold Sample.five.
  repeat (constructor; [eexists; reflexivity|]). constructor.
Defined.

(** The five sample packages: three operations, verdict [false]. *)
Lemma clean_runs_nonempty_scripts_witness :
  (∀ pkg, pkg ∈ Sample.five → is_Some (scripts (packageJson pkg))) ∧
  length (clean_targets Sample.five) = 3 ∧
  ∃ s0, clean Sample.five Sample.clock = Return s0 ∧
    ∀ evs s,
      clean_run Sample.chalkColor Sample.execWithErrorAsync true s0 evs = Some s →
      c_running s = ∅ →
      length evs = 3 ∧ clean_verdict s = Some (Fulfilled false).
Proof.
  split; [exact all_have_scripts|]. split; [reflexivity|].
  destruct (clean_runs_nonempty_scripts Sample.chalkColor
              Sample.execWithErrorAsync true Sample.five Sample.clock
              all_have_scripts) as (_ & s0 & Hclean & _ & _ & _ & _ & Hruns).
  exists s0. split; [exact Hclean|]. intros evs s Hrun Hidle.
  destruct (Hruns evs s Hrun) as [_ H]. exact (H Hidle).
Defined.

(** The second of three items rejects first: the returned promise is
    rejected while one sibling still runs and one still waits. *)
Lemma queueExec_failure_isolation_witness :
  1 ≤ 2 ∧ [1; 2; 3] !! 1 = Some 2 ∧
  Sample.tenfold_but_2 2 = Rejected (Thrown "boom") ∧
  ∃ s', run 2 Sample.tenfold_but_2 None (queueExec [1; 2; 3])
          [Process 0; Process 1; Settle 1 5] = Some s' ∧
        all_p s' = Some (Rejected (Thrown "boom")) ∧
        p s' = [None; Some (Rejected (Thrown "boom")); None] ∧
        size (q_workers s') = 1 ∧ length (q_tasks s') = 1.
Proof.
  split; [lia|]. split; [reflexivity|]. split; [reflexivity|].
  destruct (queueExec_failure_isolation 2 Sample.tenfold_but_2 None [1; 2; 3]
              1 2 (Thrown "boom") ltac:(lia) eq_refl eq_refl) as [_ H].
  destruct (run 2 Sample.tenfold_but_2 None (queueExec [1; 2; 3])
              [Process 0; Process 1]) as [s|] eqn:E;
    [|vm_compute in E; discriminate].
  destruct (step 2 Sample.tenfold_but_2 None s (Settle 1 5)) as [s'|] eqn:E';
    [|vm_compute in E; injection E as <-; vm_compute in E'; discriminate].
  assert (∀ j e', p s !! j ≠ Some (Some (Rejected e'))) as Hno.
  { vm_compute in E. injection E as <-. intros [|[|[|j]]] e'; discriminate. }
  destruct (H _ _ _ _ E Hno E') as (_ & Hall & Hp & _).
  exists s'. split.
  { change [Process 0; Process 1; Settle 1 5]
      with ([Process 0; Process 1] ++ [Settle 1 5]).
    apply run_snoc. exists s. split; [exact E|exact E']. }
  split; [exact Hall|].
  vm_compute in E. injection E as <-. vm_compute in E'. injection E' as <-.
  repeat split.
Defined.



(** The sequential loop over the five sample packages runs all five, the
    failed one included. *)
Lemma forEachAsync_sequential_witness :
  ∃ s all,
    seq_run Sample.five Sample.run_clean (seq_enter Sample.five 0 [] []) 5
    = Some s ∧
    returned s = Some (Fulfilled all) ∧
    seq_trace s = one_by_one 0 5 ∧
    length all = 5 ∧ reduceToSuccess all = false.
Proof.
  destruct (forEachAsync_sequential Sample.chalkColor Sample.run_clean
              Sample.five None) as (s0 & Heq & _ & Hall).
  injection Heq as <-.
  destruct Hall as (s & all & Hrun & Hret & Hres & Htrace).
  { apply Forall_forall. unfold Sample.five.
    repeat (constructor; [reflexivity|]). constructor. }
  exists s, all. do 3 (split; [assumption|]).
  vm_compute in Hrun. injection Hrun as <-. cbn in Hret.
  injection Hret as <-. split; reflexivity.
Defined.

(** A package that was matched is marked for build. *)
Lemma matched_implies_markForBuild_witness :
  markForBuild
    (apply_ops (Sample.package 0 "alpha" None)
       [OpSetMarkForBuild; OpGetScript "clean"; OpSetMatched; OpName]) = true.
Proof.
  pose proof (matched_implies_markForBuild 0 "alpha/package.json"
                (Sample.manifest "alpha" None)
                [OpSetMarkForBuild; OpGetScript "clean"; OpSetMatched; OpName])
    as H.
  cbn zeta in H. destruct H as (_ & _ & _ & _ & _ & H). apply H. reflexivity.
Defined.

(** Two lanes, three items: never more than two workers, started in the
    order 0, 1, 2. *)
Lemma queue_concurrency_bound_witness :
  ∃ s, run 2 Sample.tenfold None (queueExec [1; 2; 3])
         [Process 0; Process 1; Settle 0 3; Process 4] = Some s ∧
       size (q_workers s) ≤ 2 ∧
       start_order 2 Sample.tenfold None (queueExec [1; 2; 3])
         [Process 0; Process 1; Settle 0 3; Process 4] = [0; 1; 2].
Proof.
  destruct (run 2 Sample.tenfold None (queueExec [1; 2; 3])
              [Process 0; Process 1; Settle 0 3; Process 4]) as [s|] eqn:E;
    [|vm_compute in E; discriminate].
  exists s. split; [reflexivity|].
  destruct (queue_concurrency_bound 2 Sample.tenfold None [1; 2; 3] _ s E)
    as (Hsize & _ & Horder & _).
  split; [exact Hsize|]. rewrite Horder.
  vm_compute in E. injection E as <-. reflexivity.
Defined.


(** * Discovery *)

Lemma Dirent_nested_ind (P : Dirent → Prop) :
  (∀ entry files, Forall P files → P (Directory entry files)) →
  (∀ entry, P (RegularFile entry)) →
  (∀ entry, P (OtherEntry entry)) →
  ∀ dirent, P dirent.
Proof.
  intros Hdir Hfile Hother. fix IH 1. intros [entry files|entry|entry].
  - apply Hdir. induction files as [|dirent files IHfiles]; constructor.
    + apply IH.
    + exact IHfiles.
  - apply Hfile.
  - apply Hother.
Qed.

Section LoadFacts.

Variable path_join : string → string → string.
Variable require : string → completion IPackage.

Local Abbreviation Package_load := (Package_load require).
Local Abbreviation loadCore_entry := (loadCore_entry path_join require).
Local Abbreviation loadCore := (loadCore path_join require).
Local Abbreviation load := (load path_join require).
Local Abbreviation manifests_entry := (manifests_entry path_join).
Local Abbreviation manifests := (manifests path_join).
Local Abbreviation manifests_of := (manifests_of path_join).
Local Abbreviation construct_all := (construct_all require).

Lemma loadCore_entry_directory (dir entry : string) (count : nat)
    (files : list Dirent) :
  loadCore_entry dir count (Directory entry files) =
  if String.eqb entry "node_modules" then Return ([], count)
  else loadCore (path_join dir entry) count files.
Proof.
  cbn [loadCore_entry]. destruct (String.eqb entry "node_modules"); [done|].
  revert count. induction files as [|dirent files IH]; intros count; [done|].
  cbn [loadCore]. destruct (loadCore_entry _ count dirent) as [[found c1]|e]; [|done].
  by rewrite IH.
Qed.

Lemma manifests_entry_directory (dir entry : string) (files : list Dirent) :
  manifests_entry dir (Directory entry files) =
  if String.eqb entry "node_modules" then []
  else manifests (path_join dir entry) files.
Proof.
  cbn [manifests_entry]. destruct (String.eqb entry "node_modules"); [done|].
  induction files as [|dirent files IH]; [done|].
  cbn [manifests]. by rewrite IH.
Qed.

Lemma construct_all_app (count : nat) (names1 names2 : list string) :
  construct_all count (names1 ++ names2) =
  match construct_all count names1 with
  | Return (found, count1) =>
      match construct_all count1 names2 with
      | Return (more, count2) => Return (found ++ more, count2)
      | Throw e => Throw e
      end
  | Throw e => Throw e
  end.
Proof.
  revert count. induction names1 as [|fileName names1 IH]; intros count; cbn.
  - by destruct (construct_all count names2) as [[more count2]|e].
  - destruct (Package_load count fileName) as [[pkg count1]|e]; [|done].
    rewrite IH. destruct (construct_all count1 names1) as [[found c]|e]; [|done].
    by destruct (construct_all c names2) as [[more count2]|e].
Qed.

(** The traversal constructs the packages of the manifests it passes, in
    their order. *)
Lemma loadCore_entry_refines (dirent : Dirent) :
  ∀ dir count,
    loadCore_entry dir count dirent =
    construct_all count (manifests_entry dir dirent).
Proof.
  induction dirent as [entry files IH|entry|entry] using Dirent_nested_ind;
    intros dir count.
  - rewrite loadCore_entry_directory, manifests_entry_directory.
    destruct (String.eqb entry "node_modules"); [done|].
    generalize (path_join dir entry). intros sub. revert count.
    induction IH as [|dirent files Hd _ IHfiles]; intros count; [done|].
    cbn [loadCore manifests].
    rewrite construct_all_app, Hd.
    destruct (construct_all count _) as [[found c1]|e]; [|done].
    by rewrite IHfiles.
  - cbn. destruct (String.eqb entry "package.json"); [|done]. cbn.
    by destruct (Package_load count _) as [[pkg c]|e].
  - done.
Qed.

Lemma loadCore_refines (dir : string) (count : nat) (files : list Dirent) :
  loadCore dir count files = construct_all count (manifests dir files).
Proof.
  revert count. induction files as [|dirent files IH]; intros count; [done|].
  cbn [loadCore manifests].
  rewrite construct_all_app, loadCore_entry_refines.
  destruct (construct_all count _) as [[found c1]|e]; [|done].
  by rewrite IH.
Qed.

Lemma load_refines (count : nat) (dirs : list (string * list Dirent)) :
  load count dirs = construct_all count (manifests_of dirs).
Proof.
  revert count. induction dirs as [|[dir files] dirs IH]; intros count; [done|].
  cbn [load]. unfold manifests_of. cbn [flat_map fst snd].
  rewrite construct_all_app, loadCore_refines.
  destruct (construct_all count _) as [[found c1]|e]; [|done].
  by rewrite IH.
Qed.

Lemma construct_all_Return (count count' : nat) (names : list string)
    (pkgs : list Package) :
  construct_all count names = Return (pkgs, count') →
  count' = count + length pkgs ∧
  packageJsonFileName <$> pkgs = names ∧
  packageId <$> pkgs = seq count (length pkgs) ∧
  Forall (λ pkg, require (packageJsonFileName pkg) = Return (packageJson pkg) ∧
                 matched pkg = false ∧ markForBuild pkg = false) pkgs.
Proof.
  revert count pkgs. induction names as [|fileName names IH];
    intros count pkgs; cbn.
  - intros [= <- <-]. cbn. split; [lia|]. repeat split; constructor.
  - unfold Package_load.
    destruct (require fileName) as [json|e] eqn:Hreq; [|done]. cbn.
    destruct (construct_all (S count) names) as [[more c]|e] eqn:Hrest; [|done].
    intros [= <- <-]. destruct (IH _ _ Hrest) as (-> & Hnames & Hids & Hall).
    cbn. split; [lia|]. split; [by rewrite Hnames|]. split; [by rewrite Hids|].
    constructor; [|done]. cbn. done.
Qed.


(** X1.  When [Packages.load] returns, it has constructed one package for
    each file called [package.json] outside the directories called
    [node_modules], in the order of the listings; the packages hold the
    manifests read from these files, have consecutive identifiers from the
    value of the counter at the call, both flags down, and the counter has
    advanced by their number. *)
Theorem load_discovers (count count' : nat) (dirs : list (string * list Dirent))
    (pkgs : list Package) :
  load count dirs = Return (pkgs, count') →
  packageJsonFileName <$> pkgs = manifests_of dirs ∧
  packageId <$> pkgs = seq count (length pkgs) ∧
  NoDup (packageId <$> pkgs) ∧
  count' = count + length pkgs ∧
  Forall (λ pkg, require (packageJsonFileName pkg) = Return (packageJson pkg) ∧
                 matched pkg = false ∧ markForBuild pkg = false) pkgs.
Proof.
  rewrite load_refines. intros H.
  destruct (construct_all_Return _ _ _ _ H) as (Hc & Hnames & Hids & Hall).
  do 2 (split; [done|]). split; [|done]. rewrite Hids. apply NoDup_seq.
Qed.


Lemma manifests_entry_prune (dirent : Dirent) :
  ∀ dir, manifests_entry dir (prune dirent) = manifests_entry dir dirent.
Proof.
  induction dirent as [entry files IH|entry|entry] using Dirent_nested_ind;
    intros dir; [|done..].
  cbn [prune]. destruct (String.eqb entry "node_modules") eqn:E.
  - by rewrite !manifests_entry_directory, E.
  - rewrite !manifests_entry_directory, E.
    generalize (path_join dir entry). intros sub.
    induction IH as [|dirent files Hd _ IHfiles]; [done|].
    cbn [map manifests]. by rewrite Hd, IHfiles.
Qed.

Lemma manifests_prune (dir : string) (files : list Dirent) :
  manifests dir (map prune files) = manifests dir files.
Proof.
  induction files as [|dirent files IH]; [done|].
  cbn [map manifests]. by rewrite manifests_entry_prune, IH.
Qed.

Lemma manifests_of_prune (dirs : list (string * list Dirent)) :
  manifests_of (prune_root <$> dirs) = manifests_of dirs.
Proof.
  unfold manifests_of. induction dirs as [|[dir files] dirs IH]; [done|].
  cbn [fmap list_fmap flat_map]. cbn [prune_root fst snd].
  rewrite manifests_prune. f_equal. exact IH.
Qed.

(** X3.  [Packages.load] never looks inside a directory called
    [node_modules]: two trees that differ only below such directories give
    the same packages, or the same exception. *)
Theorem load_ignores_node_modules (count : nat)
    (dirs1 dirs2 : list (string * list Dirent)) :
  prune_root <$> dirs1 = prune_root <$> dirs2 →
  load count dirs1 = load count dirs2.
Proof.
  intros H. rewrite !load_refines.
  by rewrite <- (manifests_of_prune dirs1), H, manifests_of_prune.
Qed.

Lemma load_discovers_ids (count count' : nat)
    (dirs : list (string * list Dirent)) (pkgs : list Package) :
  load count dirs = Return (pkgs, count') →
  ∀ i pkg, pkgs !! i = Some pkg → packageId pkg = count + i.
Proof.
  rewrite load_refines. intros H i pkg Hi.
  destruct (construct_all_Return _ _ _ _ H) as (_ & _ & Hids & _).
  assert ((packageId <$> pkgs) !! i = Some (packageId pkg)) as Hl
    by (by rewrite list_lookup_fmap, Hi).
  rewrite Hids in Hl. apply lookup_seq in Hl as [-> _]. done.
Qed.

Lemma add_mod_15_cancel (c i j : nat) :
  (c + i) mod 15 = (c + j) mod 15 ↔ i mod 15 = j mod 15.
Proof.
  split; intros H.
  - pose proof (Nat.div_mod_eq (c + i) 15).
    pose proof (Nat.div_mod_eq (c + j) 15).
    pose proof (Nat.div_mod_eq i 15). pose proof (Nat.div_mod_eq j 15).
    pose proof (Nat.mod_upper_bound i 15).
    pose proof (Nat.mod_upper_bound j 15). lia.
  - by rewrite (Nat.Div0.add_mod c i), (Nat.Div0.add_mod c j), H.
Qed.

Lemma chalkColor_NoDup : NoDup chalkColor_table.
Proof. compute_done. Qed.

(** X4.  The [color] getter never reads outside its table.  Among the
    packages of one [Packages.load], two have the same colour exactly when
    their positions differ by a multiple of 15; up to 15 packages have
    pairwise different colours. *)
Theorem load_colors (count count' : nat) (dirs : list (string * list Dirent))
    (pkgs : list Package) :
  load count dirs = Return (pkgs, count') →
  (∀ pkg : Package, is_Some (color pkg)) ∧
  (∀ i j a b, pkgs !! i = Some a → pkgs !! j = Some b →
     (color a = color b ↔ i mod 15 = j mod 15)) ∧
  (length pkgs ≤ 15 →
   ∀ i j a b, pkgs !! i = Some a → pkgs !! j = Some b → i ≠ j →
     color a ≠ color b).
Proof.
  intros Hload.
  pose proof (load_discovers_ids _ _ _ _ Hload) as Hids.
  assert (∀ pkg : Package, is_Some (color pkg)) as Hsome.
  { intros pkg. apply lookup_lt_is_Some_2. apply Nat.mod_upper_bound.
    done. }
  assert (∀ i j a b, pkgs !! i = Some a → pkgs !! j = Some b →
            (color a = color b ↔ i mod 15 = j mod 15)) as Hiff.
  { intros i j a b Ha Hb. unfold color.
    rewrite (Hids _ _ Ha), (Hids _ _ Hb).
    change (length chalkColor_table) with 15.
    split.
    - intros Heq.
      destruct (lookup_lt_is_Some_2 chalkColor_table ((count + i) mod 15))
        as [x Hx].
      { change (length chalkColor_table) with 15.
        apply Nat.mod_upper_bound. lia. }
      rewrite Hx in Heq. symmetry in Heq.
      apply add_mod_15_cancel with count.
      exact (NoDup_lookup _ _ _ _ chalkColor_NoDup Hx Heq).
    - intros Hmod. f_equal. by apply add_mod_15_cancel. }
  split; [done|]. split; [done|].
  intros Hlen i j a b Ha Hb Hne Heq. apply (Hiff _ _ _ _ Ha Hb) in Heq.
  apply lookup_lt_Some in Ha, Hb.
  rewrite !Nat.mod_small in Heq by lia. done.
Qed.

End LoadFacts.

(** * More about [queueExec] and the batches of [Packages] *)

Section QueueMore.

Context {TItem TResult : Type}.
Variable concurrency : nat.
Variable exec : TItem → settled TResult.
Variable messageCallback : option (TItem → string).

Local Abbreviation State := (QueueState TItem TResult).
Local Abbreviation step := (step concurrency exec messageCallback).
Local Abbreviation run := (run concurrency exec messageCallback).
Local Abbreviation queue_inv := (queue_inv concurrency exec).

Lemma first_rejection_app (items : list TItem) (evs1 evs2 : list Event) :
  first_rejection exec items (evs1 ++ evs2) =
  match first_rejection exec items evs1 with
  | Some e => Some e
  | None => first_rejection exec items evs2
  end.
Proof.
  induction evs1 as [|[now|i now] evs1 IH]; cbn; [done|done|].
  by destruct (exec <$> items !! i) as [[r|e]|].
Qed.

(** X5.  At every moment of every run, the promise that [queueExec]
    returned is rejected with the reason of the earliest settlement that
    was a rejection, when there was one; otherwise it is fulfilled exactly
    when every promise of [p] is, with their values in the order of [p],
    and it is pending as long as one of them is. *)
Theorem queueExec_aggregate_state (items : list TItem) (evs : list Event)
    (s : State) :
  run (queueExec items) evs = Some s →
  all_p s =
    match first_rejection exec items evs with
    | Some e => Some (Rejected e)
    | None => Promise_all (p s)
    end.
Proof.
  revert s. induction evs as [|ev evs IH] using rev_ind; intros s.
  - cbn. intros [= <-]. by rewrite queueExec_unfold.
  - intros Hrun. apply run_snoc in Hrun as (s1 & Hrun1 & Hstep).
    specialize (IH _ Hrun1). rewrite first_rejection_app.
    pose proof (queue_inv_run _ _ _ _ _ _ Hrun1) as Hinv.
    destruct ev as [now|i now]; cbn in Hstep.
    + destruct (process_report _ _ _ _ Hstep) as (_ & _ & -> & ->).
      rewrite IH. cbn. by destruct (first_rejection exec items evs).
    + destruct (queue_inv_settle _ _ _ _ _ _ _ _ Hinv Hstep)
        as (_ & _ & _ & _ & it & Hit & Hpi & Hp & ->).
      rewrite IH. cbn [first_rejection]. rewrite Hit. cbn.
      destruct (first_rejection exec items evs) as [e|]; [done|].
      assert (Promise_all (p s1) = None) as ->
        by (unfold Promise_all; by rewrite (all_fulfilled_pending _ _ Hpi)).
      cbn. by destruct (exec it).
Qed.

(** In an idle state the returned promise is settled. *)
Lemma idle_all_p (items : list TItem) (evs : list Event) (s : State) :
  run (queueExec items) evs = Some s → idle s →
  match all_p s with
  | Some (Fulfilled rs) => Forall2 (λ it r, exec it = Fulfilled r) items rs
  | Some (Rejected e) => ∃ it, it ∈ items ∧ exec it = Rejected e
  | None => False
  end.
Proof.
  intros Hrun Hidle.
  pose proof (queue_inv_run _ _ _ _ _ _ Hrun) as Hinv.
  pose proof (idle_settled _ _ _ _ Hinv Hidle) as Hp.
  pose proof (all_inv_run _ _ _ _ _ _ Hrun) as Hall.
  unfold all_inv in Hall. destruct (all_p s) as [[rs|e]|].
  - apply Forall2_same_length_lookup_2.
    + rewrite <- (inv_length Hinv). by eapply length_mapM.
    + intros i it r Hit Hr.
      pose proof (all_fulfilled_lookup _ _ i Hall) as Hi.
      rewrite Hr, (Hp _ _ Hit) in Hi. cbn in Hi. congruence.
  - destruct Hall as [i Hi].
    destruct (settled_outcome _ _ _ _ _ _ Hinv Hi) as (it & Hit & He).
    exists it. split; [by eapply list_elem_of_lookup_2|done].
  - destruct Hall as [Hnone Hno].
    apply mapM_None, Exists_exists in Hnone as (pr & Hin & Hpr).
    apply list_elem_of_lookup in Hin as [i Hi].
    assert (i < length items) as Hlt
      by (rewrite <- (inv_length Hinv); by eapply lookup_lt_Some).
    destruct (lookup_lt_is_Some_2 _ _ Hlt) as [it Hit].
    rewrite (Hp _ _ Hit) in Hi. simplify_eq.
    destruct (exec it) as [r|e] eqn:He; [done|].
    apply (Hno i e). by rewrite (Hp _ _ Hit), He.
Qed.

Lemma settle_order_snoc (evs : list Event) (ev : Event) :
  settle_order (evs ++ [ev]) =
  settle_order evs ++ match ev with Settle i _ => [i] | Process _ => [] end.
Proof.
  unfold settle_order. rewrite omap_app. by destruct ev.
Qed.

Lemma settled_once (items : list TItem) (evs : list Event) (s : State) :
  run (queueExec items) evs = Some s →
  NoDup (settle_order evs) ∧
  ∀ i, i ∈ settle_order evs ↔ i < started s ∧ q_workers s !! i = None.
Proof.
  revert s. induction evs as [|ev evs IH] using rev_ind; intros s.
  - cbn. intros [= <-]. split; [constructor|]. intros i.
    rewrite queueExec_unfold. unfold started, task_list. cbn.
    rewrite length_replicate, length_imap, elem_of_nil. lia.
  - intros Hrun. apply run_snoc in Hrun as (s1 & Hrun1 & Hstep).
    destruct (IH _ Hrun1) as [Hnd Hin].
    pose proof (queue_inv_run _ _ _ _ _ _ Hrun1) as Hinv.
    rewrite settle_order_snoc. destruct ev as [now|i now]; cbn in Hstep.
    + rewrite app_nil_r. split; [done|]. intros i. rewrite Hin.
      destruct (queue_inv_process _ _ _ _ _ _ Hinv Hstep)
        as (_ & Hs1 & task & Ht & Hslot).
      assert (q_workers s = <[started s1 := (task, now)]> (q_workers s1))
        as Hw.
      { unfold q_process in Hstep. rewrite Ht in Hstep.
        case_decide; [|done]. injection Hstep as Heq.
        apply (f_equal q_workers) in Heq. by rewrite <- Heq, <- Hslot. }
      rewrite Hs1, Hw, lookup_insert. case_decide as Hi.
      * subst i. split; [lia|]. by intros [_ ?].
      * split; [intros [? ?]; split; [lia|done]|].
        intros [? ?]. split; [lia|done].
    + destruct (queue_inv_settle _ _ _ _ _ _ _ _ Hinv Hstep)
        as (_ & Hs1 & _ & Hw & it & Hit & Hpi & _).
      assert (is_Some (q_workers s1 !! i)) as [w Hwi].
      { unfold worker_settle in Hstep.
        destruct (q_workers s1 !! i); [eauto|done]. }
      destruct (inv_workers Hinv _ _ _ (eq_trans Hwi
                  (f_equal Some (surjective_pairing w)))) as (Hlt & _).
      split.
      * apply NoDup_app. split; [done|]. split; [|apply NoDup_singleton].
        intros j Hj Hj'. apply list_elem_of_singleton in Hj'. subst j.
        apply Hin in Hj as [_ Hnone]. congruence.
      * intros j. rewrite elem_of_app, list_elem_of_singleton, Hin, Hs1, Hw,
          lookup_delete. case_decide as Hij.
        -- subst j. split; [intros _; done|]. by right.
        -- split; [intros [?|?]; [done|congruence]|]. by left.
Qed.

(** X13.  No operation is run twice: in every run each index is settled
    at most once, the indices settled are those started and no longer
    running, and at the end of a run they are the indices of all the
    items, each once. *)
Theorem queueExec_settles_each_once (items : list TItem) (evs : list Event)
    (s : State) :
  run (queueExec items) evs = Some s →
  NoDup (settle_order evs) ∧
  (∀ i, i ∈ settle_order evs ↔ i < started s ∧ q_workers s !! i = None) ∧
  length (settle_order evs) + size (q_workers s) = started s ∧
  (idle s → settle_order evs ≡ₚ seq 0 (length items)).
Proof.
  intros Hrun. destruct (settled_once _ _ _ Hrun) as [Hnd Hin].
  pose proof (queue_inv_run _ _ _ _ _ _ Hrun) as Hinv.
  do 2 (split; [done|]).
  assert (∀ n, (∀ i, i ∈ settle_order evs ↔ i < n) →
               settle_order evs ≡ₚ seq 0 n) as Hperm.
  { intros n H. apply NoDup_Permutation; [done|apply NoDup_seq|].
    intros i. rewrite H, elem_of_seq. lia. }
  split.
  - assert (list_to_set (settle_order evs) ∪ dom (q_workers s)
            = (set_seq 0 (started s) : gset nat)) as Hset.
    { apply set_eq. intros i.
      rewrite elem_of_union, elem_of_list_to_set, Hin, elem_of_dom,
        elem_of_set_seq.
      destruct (q_workers s !! i) as [[task start]|] eqn:E.
      - destruct (inv_workers Hinv _ _ _ E) as (? & _).
        split; [intros _; lia|]. intros _. right. eauto.
      - split; [intros [[? _]|[? ?]]; [lia|done]|].
        intros [_ ?]. left. split; [lia|done]. }
    apply (f_equal size) in Hset.
    rewrite size_union, size_list_to_set, size_dom, size_set_seq in Hset;
      [done|done|].
    intros i. rewrite elem_of_list_to_set, elem_of_dom, Hin.
    intros [_ Hnone] [w Hw]. congruence.
  - intros [Ht Hw]. apply Hperm. intros i. rewrite Hin, Hw, lookup_empty.
    unfold started. rewrite Ht, (inv_length Hinv). cbn.
    split; [intros [? _]|intros ?; split; [|done]]; lia.
Qed.

End QueueMore.

Section SingleLane.

Context {TItem TResult : Type}.
Variable exec : TItem → settled TResult.
Variable messageCallback : option (TItem → string).

Local Abbreviation State := (QueueState TItem TResult).
Local Abbreviation run := (run 1 exec messageCallback).
Local Abbreviation queue_inv := (queue_inv 1 exec).

Lemma single_lane_run (items : list TItem) (evs : list Event) (s s' : State) :
  queue_inv items s →
  (∀ i, is_Some (q_workers s !! i) → S i = started s) →
  run s evs = Some s' →
  (∀ i, is_Some (q_workers s' !! i) → S i = started s') ∧
  settle_order evs =
    seq (started s - size (q_workers s)) (length (settle_order evs)) ∧
  started s' - size (q_workers s') =
    started s - size (q_workers s) + length (settle_order evs).
Proof.
  revert s. induction evs as [|ev evs IH]; intros s Hinv HJ;
    cbn -[settle_order].
  - intros [= <-]. split; [done|]. split; [done|]. cbn. lia.
  - destruct (step 1 exec messageCallback s ev) as [s1|] eqn:Hstep; [|done].
    intros Hrun. pose proof (queue_inv_step _ _ _ _ _ _ _ Hinv Hstep) as Hinv1.
    destruct ev as [now|i now]; cbn in Hstep.
    + destruct (queue_inv_process _ _ _ _ _ _ Hinv Hstep)
        as (_ & Hs1 & task & Ht & Hslot).
      assert (size (q_workers s) = 0 ∧
              q_workers s1 = <[slot task := (task, now)]> (q_workers s))
        as [Hsize Hw1].
      { unfold q_process in Hstep. rewrite Ht in Hstep.
        case_decide; [|done]. split; [lia|]. injection Hstep as Heq.
        apply (f_equal q_workers) in Heq. by rewrite <- Heq. }
      apply map_size_empty_iff in Hsize as Hempty.
      rewrite Hempty, Hslot in Hw1.
      destruct (IH _ Hinv1) as (HJ' & Horder & Hcount); [|done|].
      { intros i. rewrite Hw1, lookup_insert. case_decide as Hi.
        - intros _. subst i. by rewrite Hs1.
        - rewrite lookup_empty. by intros [? ?]. }
      assert (size (q_workers s1) = 1) as Hsize1.
      { rewrite Hw1, map_size_insert_None by apply lookup_empty.
        by rewrite map_size_empty. }
      rewrite Hsize1, Hs1 in Horder, Hcount.
      change (settle_order (Process now :: evs)) with (settle_order evs).
      rewrite Hsize. split; [done|].
      replace (started s - 0) with (S (started s) - 1) by lia.
      split; [done|lia].
    + destruct (queue_inv_settle _ _ _ _ _ _ _ _ Hinv Hstep)
        as (_ & Hs1 & _ & Hw & it & Hit & Hpi & _).
      assert (is_Some (q_workers s !! i)) as Hsome.
      { unfold worker_settle in Hstep.
        destruct (q_workers s !! i); [eauto|done]. }
      pose proof (HJ i Hsome) as Hi. destruct Hsome as [w Hwi].
      assert (size (q_workers s) = 1) as Hsize.
      { pose proof (inv_bound Hinv) as Hb.
        rewrite <- (insert_delete_id (q_workers s) i w Hwi) in Hb |- *.
        rewrite map_size_insert_None in Hb |- * by apply lookup_delete_eq.
        lia. }
      assert (q_workers s1 = ∅) as Hempty.
      { rewrite Hw. apply map_size_empty_iff.
        rewrite map_size_delete, Hwi. cbn. lia. }
      destruct (IH _ Hinv1) as (HJ' & Horder & Hcount); [|done|].
      { intros j. rewrite Hempty, lookup_empty. by intros [? ?]. }
      rewrite Hempty, map_size_empty, Hs1 in Horder, Hcount.
      split; [done|]. rewrite Hsize.
      change (settle_order (Settle i now :: evs)) with (i :: settle_order evs).
      cbn [length].
      replace (started s - 1) with i by lia.
      replace (started s - 0) with (S i) in Horder, Hcount by lia.
      split; [|lia]. cbn. by rewrite <- Horder.
Qed.

(** X6.  With a concurrency of one, the operations settle in the order
    of their submission: the settlement of rank [k] of any run is that of
    the item of index [k]; and a running operation is always the last one
    started. *)
Theorem single_lane_settles_in_order (items : list TItem) (evs : list Event)
    (s : State) :
  run (queueExec items) evs = Some s →
  settle_order evs = seq 0 (length (settle_order evs)) ∧
  length (settle_order evs) = started s - size (q_workers s) ∧
  (∀ i, is_Some (q_workers s !! i) → S i = started s).
Proof.
  intros Hrun.
  destruct (single_lane_run items evs _ s (queue_inv_init 1 exec items))
    as (HJ & Horder & Hcount); [|done|].
  { intros i. rewrite queueExec_unfold. cbn. rewrite lookup_empty.
    by intros [? ?]. }
  assert (started (queueExec items : State) - size (q_workers (queueExec items : State)) = 0)
    as H0.
  { rewrite queueExec_unfold. unfold started, task_list. cbn.
    rewrite length_replicate, length_imap. lia. }
  rewrite H0 in Horder, Hcount. split; [done|]. split; [lia|done].
Qed.

End SingleLane.

Section BatchFacts.

Variable chalkColor : nat → string → string.
Variable concurrency : nat.
Variable message : option string.

Local Abbreviation callback := (messageCallback_of chalkColor message).

(** X7.  [queueExecOnAllPackage], as [Packages.cleanNodeModules] and
    [Packages.noHoistInstall] use it, with a concurrency of at least one:
    every run can be carried to its end, where the promise it returned is
    settled.  It is fulfilled exactly when no operation rejected, with
    [true] exactly when no package's result has an error; it is rejected,
    with the reason of a package whose operation rejected, as soon as one
    did, and then gives no verdict. *)
Theorem queueExecOnAllPackage_verdict
    (exec : Package → settled ExecAsyncResult) (packages : list Package) :
  1 ≤ concurrency →
  (∃ evs s,
     run concurrency exec callback (queueExecOnAllPackageCore packages) evs
       = Some s ∧ idle s) ∧
  ∀ evs s,
    run concurrency exec callback (queueExecOnAllPackageCore packages) evs
      = Some s →
    idle s →
    match queueExecOnAllPackage s with
    | Some (Fulfilled verdict) =>
        (∀ pkg, pkg ∈ packages → is_fulfilled (exec pkg) = true) ∧
        (verdict = true ↔
         ∀ pkg, pkg ∈ packages →
                ∃ result, exec pkg = Fulfilled result ∧ error result = None)
    | Some (Rejected e) => ∃ pkg, pkg ∈ packages ∧ exec pkg = Rejected e
    | None => False
    end.
Proof.
  intros HK. split; [by apply run_complete|]. intros evs s Hrun Hidle.
  pose proof (idle_all_p _ _ _ _ _ _ Hrun Hidle) as Hall.
  unfold queueExecOnAllPackage.
  destruct (all_p s) as [[results|e]|]; [|done..].
  split.
  - intros pkg Hpkg. apply list_elem_of_lookup in Hpkg as [i Hi].
    destruct (Forall2_lookup_l _ _ _ _ _ Hall Hi) as (r & _ & ->). done.
  - rewrite reduceToSuccess_true. split.
    + intros Hok pkg Hpkg. apply list_elem_of_lookup in Hpkg as [i Hi].
      destruct (Forall2_lookup_l _ _ _ _ _ Hall Hi) as (r & Hr & He).
      exists r. split; [done|].
      specialize (Hok r (list_elem_of_lookup_2 _ _ _ Hr)).
      unfold truthy_error in Hok. by destruct (error r).
    + intros Hok r Hr. apply list_elem_of_lookup in Hr as [i Hi].
      destruct (Forall2_lookup_r _ _ _ _ _ Hall Hi) as (pkg & Hpkg & He).
      destruct (Hok pkg (list_elem_of_lookup_2 _ _ _ Hpkg)) as (r' & He' & Hnone).
      assert (r' = r) as -> by congruence.
      unfold truthy_error. by rewrite Hnone.
Qed.



End BatchFacts.

Section CleanMore.

Variable chalkColor : nat → string → string.
Variable execWithErrorAsync : string → Package → ExecAsyncResult.

(** X10.  [Packages.clean] returns its promise of a verdict exactly when
    every package of the list has a [scripts] object; as soon as one has
    none, it throws a [TypeError], whatever the other packages declare. *)
Theorem clean_needs_scripts (packages : list Package) (clock : nat → Z) :
  ((∀ pkg, pkg ∈ packages → is_Some (scripts (packageJson pkg))) ↔
   ∃ s0, clean packages clock = Return s0) ∧
  ((∃ pkg, pkg ∈ packages ∧ scripts (packageJson pkg) = None) ↔
   ∃ message, clean packages clock = Throw (TypeError message)).
Proof.
  assert ((∃ pkg, pkg ∈ packages ∧ scripts (packageJson pkg) = None) →
          ∃ message, clean packages clock = Throw (TypeError message)) as Hbad.
  { intros H. unfold clean.
    destruct (clean_loop_faults clock packages 0 c_fresh H) as [msg ->]. eauto. }
  assert ((∀ pkg, pkg ∈ packages → is_Some (scripts (packageJson pkg))) →
          ∃ s0, clean packages clock = Return s0) as Hgood.
  { intros H.
    destruct (clean_inv_init execWithErrorAsync true packages clock H)
      as (s0 & Hs0 & _). eauto. }
  assert ((∀ pkg, pkg ∈ packages → is_Some (scripts (packageJson pkg))) ∨
          (∃ pkg, pkg ∈ packages ∧ scripts (packageJson pkg) = None)) as Hdec.
  { destruct (decide (Forall (λ pkg, is_Some (scripts (packageJson pkg)))
                        packages)) as [H|H].
    - left. by apply Forall_forall.
    - right. apply (not_Forall_Exists _) in H.
      apply Exists_exists in H as (pkg & Hin & Hpkg). exists pkg.
      split; [done|]. unfold compose in Hpkg.
      destruct (scripts (packageJson pkg)); [|done].
      destruct Hpkg. by eexists. }
  split; (split; [done|]).
  - intros [s0 Hs0]. destruct Hdec as [H|H]; [done|].
    destruct (Hbad H) as [msg Hmsg]. congruence.
  - intros [msg Hmsg]. destruct Hdec as [H|H]; [|done].
    destruct (Hgood H) as [s0 Hs0]. congruence.
Qed.

Lemma size_initial_segment {A} (m : gmap nat A) (n : nat) :
  (∀ i, is_Some (m !! i) ↔ i < n) → size m = n.
Proof.
  intros H. rewrite <- size_dom.
  assert (dom m = set_seq (C:=gset nat) 0 n) as ->.
  { apply set_eq. intros i. rewrite elem_of_dom, elem_of_set_seq, H. lia. }
  apply size_set_seq.
Qed.

(** X11.  [Packages.clean] does not go through the queue: right after the
    call all its operations are in flight, however many they are, and after
    [k] settlements all but [k] of them still are. *)
Theorem clean_starts_all_at_once (status : bool) (packages : list Package)
    (clock : nat → Z) :
  (∀ pkg, pkg ∈ packages → is_Some (scripts (packageJson pkg))) →
  ∃ s0, clean packages clock = Return s0 ∧
    size (c_running s0) = length (clean_targets packages) ∧
    ∀ evs s,
      clean_run chalkColor execWithErrorAsync status s0 evs = Some s →
      size (c_running s) + length evs = length (clean_targets packages).
Proof.
  intros Hall.
  destruct (clean_inv_init execWithErrorAsync status packages clock Hall)
    as (s0 & Hs0 & Hinv & _ & _ & _ & Hdom).
  exists s0. split; [done|].
  pose proof (size_initial_segment _ _ Hdom) as Hsize. split; [done|].
  rewrite <- Hsize. clear Hsize Hdom Hs0. generalize dependent s0.
  intros s0 Hinv evs. revert s0 Hinv.
  induction evs as [|[i now] evs IH]; intros s0 Hinv s; cbn.
  - intros [= <-]. lia.
  - destruct (clean_settle chalkColor execWithErrorAsync status i now s0)
      as [s1|] eqn:Hs; [|done].
    intros Hrun.
    destruct (clean_inv_settle _ _ _ _ _ _ _ _ Hinv Hs)
      as (Hinv1 & pkg & script & start & Hw & Hd & _).
    specialize (IH _ Hinv1 _ Hrun). rewrite Hd in IH.
    rewrite map_size_delete, Hw in IH. cbn in IH.
    assert (size (c_running s0) ≠ 0) as Hne.
    { apply map_size_non_empty_iff. intros Hempty.
      by rewrite Hempty, lookup_empty in Hw. }
    lia.
Qed.

End CleanMore.

Section InstallFacts.

Variable chalkColor : nat → string → string.
Variable concurrency : nat.
Variable path_join : string → string → string.
Variable path_dirname : string → string.
Variable copyFileAsync : string → string → settled unit.
Variable unlinkAsync : string → settled unit.
Variable execWithErrorAsync : string → Package → ExecAsyncResult.
Variable repoRoot : string.

Local Abbreviation install :=
  (Package_noHoistInstall path_join path_dirname copyFileAsync unlinkAsync
     execWithErrorAsync repoRoot).
Local Abbreviation exec :=
  (Packages_noHoistInstall_exec path_join path_dirname copyFileAsync
     unlinkAsync execWithErrorAsync repoRoot).
Local Abbreviation callback :=
  (messageCallback_of chalkColor Packages_noHoistInstall_message).
Local Abbreviation npmRC :=
  (λ pkg, path_join (directory path_dirname pkg) ".npmrc").
Local Abbreviation rootNpmRC := (path_join repoRoot ".npmrc").

Lemma install_outcome (pkg : Package) :
  match (install pkg).1 with
  | Fulfilled result =>
      result = execWithErrorAsync npmCommand pkg ∧
      is_fulfilled (copyFileAsync rootNpmRC (npmRC pkg)) = true ∧
      is_fulfilled (unlinkAsync (npmRC pkg)) = true
  | Rejected e =>
      copyFileAsync rootNpmRC (npmRC pkg) = Rejected e ∨
      (is_fulfilled (copyFileAsync rootNpmRC (npmRC pkg)) = true ∧
       unlinkAsync (npmRC pkg) = Rejected e)
  end.
Proof.
  unfold Package_noHoistInstall.
  destruct (copyFileAsync _ _) as [[]|e]; cbn; [|by left].
  destruct (unlinkAsync _) as [[]|e]; cbn; [done|by right].
Qed.

(** X12.  [Package.noHoistInstall] runs [npm] for a package exactly when
    the root [.npmrc] could be copied into its directory, and then removes
    that copy, also when [npm] failed.  [Packages.noHoistInstall], with a
    concurrency of at least one, ends every run settled: with a verdict
    when every copy and every removal succeeded, [true] exactly when no
    [npm] run reported an error, and then with one status line per package;
    rejected, with the reason of a failed copy or removal, otherwise. *)
Theorem Packages_noHoistInstall_verdict (packages : list Package) :
  1 ≤ concurrency →
  (∀ pkg,
     let calls := (install pkg).2 in
     (Exec npmCommand (directory path_dirname pkg) ∈ calls ↔
      is_fulfilled (copyFileAsync rootNpmRC (npmRC pkg)) = true) ∧
     (Unlink (npmRC pkg) ∈ calls ↔
      Exec npmCommand (directory path_dirname pkg) ∈ calls)) ∧
  (∃ evs s,
     run concurrency exec callback (queueExecOnAllPackageCore packages) evs
       = Some s ∧ idle s) ∧
  ∀ evs s,
    run concurrency exec callback (queueExecOnAllPackageCore packages) evs
      = Some s →
    idle s →
    match queueExecOnAllPackage s with
    | Some (Fulfilled verdict) =>
        (∀ pkg, pkg ∈ packages →
           is_fulfilled (copyFileAsync rootNpmRC (npmRC pkg)) = true ∧
           is_fulfilled (unlinkAsync (npmRC pkg)) = true) ∧
        (verdict = true ↔
         ∀ pkg, pkg ∈ packages →
                error (execWithErrorAsync npmCommand pkg) = None) ∧
        length (logged s) = length packages
    | Some (Rejected e) =>
        ∃ pkg, pkg ∈ packages ∧
          (copyFileAsync rootNpmRC (npmRC pkg) = Rejected e ∨
           (is_fulfilled (copyFileAsync rootNpmRC (npmRC pkg)) = true ∧
            unlinkAsync (npmRC pkg) = Rejected e))
    | None => False
    end.
Proof.
  intros HK. split; [|split; [by apply run_complete|]].
  - intros pkg. unfold Package_noHoistInstall. cbn zeta.
    destruct (copyFileAsync _ _) as [[]|e];
      [destruct (unlinkAsync _) as [[]|e]|]; cbn;
      rewrite !elem_of_cons, !elem_of_nil; intuition (discriminate || eauto).
  - intros evs s Hrun Hidle.
    pose proof (idle_all_p _ _ _ _ _ _ Hrun Hidle) as Hall.
    unfold queueExecOnAllPackage.
    destruct (all_p s) as [[results|e]|] eqn:Hp; [| |done].
    + assert (∀ pkg, pkg ∈ packages →
                exec pkg = Fulfilled (execWithErrorAsync npmCommand pkg) ∧
                is_fulfilled (copyFileAsync rootNpmRC (npmRC pkg)) = true ∧
                is_fulfilled (unlinkAsync (npmRC pkg)) = true) as Hpkgs.
      { intros pkg Hpkg. apply list_elem_of_lookup in Hpkg as [i Hi].
        destruct (Forall2_lookup_l _ _ _ _ _ Hall Hi) as (r & _ & He).
        pose proof (install_outcome pkg) as Hout.
        unfold Packages_noHoistInstall_exec in He |- *. rewrite He in Hout.
        destruct Hout as (-> & ? & ?). done. }
      split; [intros pkg Hpkg; by destruct (Hpkgs pkg Hpkg) as (_ & ? & ?)|].
      split.
      * rewrite reduceToSuccess_true. split.
        -- intros Hok pkg Hpkg. destruct (Hpkgs pkg Hpkg) as (He & _).
           apply list_elem_of_lookup in Hpkg as [i Hi].
           destruct (Forall2_lookup_l _ _ _ _ _ Hall Hi) as (r & Hr & He').
           assert (r = execWithErrorAsync npmCommand pkg) as -> by congruence.
           specialize (Hok _ (list_elem_of_lookup_2 _ _ _ Hr)).
           unfold truthy_error in Hok. by destruct (error _).
        -- intros Hok r Hr. apply list_elem_of_lookup in Hr as [i Hi].
           destruct (Forall2_lookup_r _ _ _ _ _ Hall Hi) as (pkg & Hpkg & He).
           apply list_elem_of_lookup_2 in Hpkg.
           destruct (Hpkgs pkg Hpkg) as (He' & _).
           assert (r = execWithErrorAsync npmCommand pkg) as -> by congruence.
           unfold truthy_error. by rewrite (Hok pkg Hpkg).
      * destruct (queue_counter _ _ _ _ _ _ _ eq_refl Hrun)
          as (_ & _ & -> & _ & _ & _ & Hend).
        apply Hend; [done|]. intros pkg Hpkg.
        destruct (Hpkgs pkg Hpkg) as (-> & _). done.
    + destruct Hall as (pkg & Hpkg & He). exists pkg. split; [done|].
      pose proof (install_outcome pkg) as Hout.
      unfold Packages_noHoistInstall_exec in He. by rewrite He in Hout.
Qed.

End InstallFacts.

(** * More instances on the sample inputs *)

Lemma sample_repo_loads :
  ∃ pkgs,
    load SampleRepo.path_join SampleRepo.require 0 [("repo", SampleRepo.tree)]
    = Return (pkgs, 3) ∧ length pkgs = 3.
Proof. vm_compute. eexists. split; reflexivity. Defined.

(** The sample repository: three packages, numbered from zero. *)
Lemma load_discovers_witness :
  ∃ pkgs,
    load SampleRepo.path_join SampleRepo.require 0 [("repo", SampleRepo.tree)]
    = Return (pkgs, 3) ∧
    packageJsonFileName <$> pkgs
    = ["repo/package.json"; "repo/packages/alpha/package.json";
       "repo/packages/beta/package.json"] ∧
    packageId <$> pkgs = [0; 1; 2].
Proof.
  destruct (load SampleRepo.path_join SampleRepo.require 0
              [("repo", SampleRepo.tree)]) as [[pkgs c]|e] eqn:E;
    [|vm_compute in E; discriminate].
  destruct (load_discovers _ _ _ _ _ _ E) as (Hnames & Hids & _ & Hc & _).
  assert (length pkgs = 3) as Hlen
    by (rewrite <- (length_fmap packageJsonFileName), Hnames; reflexivity).
  exists pkgs. rewrite Hc, Hlen. split; [reflexivity|].
  split; [rewrite Hnames; reflexivity|]. rewrite Hids, Hlen. reflexivity.
Defined.

(** Installing the dependencies does not change what is discovered. *)
Lemma load_ignores_node_modules_witness :
  load SampleRepo.path_join SampleRepo.require 0 [("repo", SampleRepo.tree)]
  = load SampleRepo.path_join SampleRepo.require 0
      [("repo", SampleRepo.bare_tree)].
Proof. apply load_ignores_node_modules. reflexivity. Defined.

(** The three packages of the sample repository have three colours. *)
Lemma load_colors_witness :
  ∃ pkgs,
    load SampleRepo.path_join SampleRepo.require 0 [("repo", SampleRepo.tree)]
    = Return (pkgs, 3) ∧
    ∀ i j a b, pkgs !! i = Some a → pkgs !! j = Some b → i ≠ j →
               color a ≠ color b.
Proof.
  destruct sample_repo_loads as (pkgs & Hload & Hlen).
  exists pkgs. split; [exact Hload|].
  destruct (load_colors _ _ _ _ _ _ Hload) as (_ & _ & H). apply H.
  rewrite Hlen. lia.
Defined.

(** The second of three items rejects first: the returned promise is
    rejected with its reason. *)
Lemma queueExec_aggregate_state_witness :
  ∃ s, run 2 Sample.tenfold_but_2 None (queueExec [1; 2; 3])
         [Process 0; Process 1; Settle 1 5] = Some s ∧
       all_p s = Some (Rejected (Thrown "boom")).
Proof.
  destruct (run 2 Sample.tenfold_but_2 None (queueExec [1; 2; 3])
              [Process 0; Process 1; Settle 1 5]) as [s|] eqn:E;
    [|vm_compute in E; discriminate].
  exists s. split; [reflexivity|].
  rewrite (queueExec_aggregate_state _ _ _ _ _ _ E). reflexivity.
Defined.

(** One lane, two settlements: items 0 and 1, in that order. *)
Lemma single_lane_settles_in_order_witness :
  ∃ s, run 1 Sample.tenfold None (queueExec [1; 2; 3])
         [Process 0; Settle 0 1; Process 2; Settle 1 3] = Some s ∧
       settle_order [Process 0; Settle 0 1; Process 2; Settle 1 3] = [0; 1].
Proof.
  destruct (run 1 Sample.tenfold None (queueExec [1; 2; 3])
              [Process 0; Settle 0 1; Process 2; Settle 1 3]) as [s|] eqn:E;
    [|vm_compute in E; discriminate].
  exists s. split; [reflexivity|].
  destruct (single_lane_settles_in_order _ _ _ _ _ E) as (-> & _).
  reflexivity.
Defined.

Lemma five_all_return :
  ∀ pkg, pkg ∈ Sample.five → is_fulfilled (Sample.run_clean pkg) = true.
Proof.
  apply Forall_forall. unfold Sample.five.
  repeat (constructor; [reflexivity|]). constructor.
Defined.

(** The batch over the five sample packages, one of which fails: the
    verdict is [false]. *)
Lemma queueExecOnAllPackage_verdict_witness :
  1 ≤ 2 ∧
  ∀ evs s,
    run 2 Sample.run_clean
      (messageCallback_of Sample.chalkColor Packages_cleanNodeModules_message)
      (queueExecOnAllPackageCore Sample.five) evs = Some s →
    idle s → queueExecOnAllPackage s = Some (Fulfilled false).
Proof.
  split; [lia|]. intros evs s Hrun Hidle.
  destruct (queueExecOnAllPackage_verdict Sample.chalkColor 2
              Packages_cleanNodeModules_message Sample.run_clean Sample.five
              ltac:(lia)) as [_ H].
  specialize (H evs s Hrun Hidle).
  destruct (queueExecOnAllPackage s) as [[verdict|e]|]; [| |destruct H].
  - destruct verdict; [exfalso|reflexivity].
    destruct H as [_ [H _]].
    destruct (H eq_refl (Sample.package 3 "delta"
                           (Some (<["clean" := "exit 1"]> ∅))))
      as (result & Hres & Herr).
    + apply (list_elem_of_lookup_2 _ 3). reflexivity.
    + vm_compute in Hres. injection Hres as <-. discriminate.
  - exfalso. destruct H as (pkg & Hpkg & He).
    pose proof (five_all_return pkg Hpkg) as Hf. rewrite He in Hf.
    discriminate.
Defined.



(** [clean] over the five sample packages starts three operations at
    once. *)
Lemma clean_starts_all_at_once_witness :
  ∃ s0, clean Sample.five Sample.clock = Return s0 ∧ size (c_running s0) = 3.
Proof.
  destruct (clean_starts_all_at_once Sample.chalkColor
              Sample.execWithErrorAsync true Sample.five Sample.clock
              all_have_scripts) as (s0 & Hs0 & Hsize & _).
  exists s0. split; [exact Hs0|]. rewrite Hsize. reflexivity.
Defined.

(** The root [.npmrc] cannot be copied into one of the five packages: the
    batch rejects with that reason. *)
Lemma Packages_noHoistInstall_verdict_witness :
  1 ≤ 2 ∧
  ∀ evs s,
    run 2
      (Packages_noHoistInstall_exec SampleRepo.path_join
         SampleRepo.path_dirname SampleRepo.copyFileAsync
         SampleRepo.unlinkAsync SampleRepo.execWithErrorAsync "repo")
      (messageCallback_of Sample.chalkColor Packages_noHoistInstall_message)
      (queueExecOnAllPackageCore Sample.five) evs = Some s →
    idle s → queueExecOnAllPackage s = Some (Rejected (Thrown "EACCES")).
Proof.
  split; [lia|]. intros evs s Hrun Hidle.
  destruct (Packages_noHoistInstall_verdict Sample.chalkColor 2
              SampleRepo.path_join SampleRepo.path_dirname
              SampleRepo.copyFileAsync SampleRepo.unlinkAsync
              SampleRepo.execWithErrorAsync "repo" Sample.five ltac:(lia))
    as (_ & _ & H).
  specialize (H evs s Hrun Hidle).
  destruct (queueExecOnAllPackage s) as [[verdict|e]|]; [| |destruct H].
  - exfalso. destruct H as [H _].
    destruct (H (Sample.package 3 "delta" (Some (<["clean" := "exit 1"]> ∅))))
      as [Hcopy _].
    + apply (list_elem_of_lookup_2 _ 3). reflexivity.
    + vm_compute in Hcopy. discriminate.
  - destruct H as (pkg & Hpkg & He). unfold Sample.five in Hpkg.
    repeat (apply elem_of_cons in Hpkg as [->|Hpkg]);
      [..|by apply elem_of_nil in Hpkg];
      vm_compute in He; destruct He as [He|[_ He]]; try discriminate.
    injection He as <-. reflexivity.
Defined.


(** [clean] over a list with a package without [scripts] throws. *)
Lemma clean_needs_scripts_witness :
  ∃ message,
    clean (Sample.five ++ [Sample.bare]) Sample.clock
    = Throw (TypeError message).
Proof.
  apply clean_needs_scripts; [exact Sample.execWithErrorAsync|].
  exists Sample.bare. split; [|reflexivity].
  apply elem_of_app. right. left.
Defined.

(** Three items on two lanes, settled out of order: each once. *)
Lemma queueExec_settles_each_once_witness :
  ∃ s, run 2 Sample.tenfold None (queueExec [1; 2; 3]) Sample.out_of_order
       = Some s ∧
       settle_order Sample.out_of_order ≡ₚ [0; 1; 2].
Proof.
  destruct (run 2 Sample.tenfold None (queueExec [1; 2; 3])
              Sample.out_of_order) as [s|] eqn:E;
    [|vm_compute in E; discriminate].
  exists s. split; [reflexivity|].
  destruct (queueExec_settles_each_once _ _ _ _ _ _ E) as (_ & _ & _ & H).
  apply H. vm_compute in E. injection E as <-. split; reflexivity.
Defined.
